(** * py_event: the [Event] listener table and the [EventDispatcher] loop

    A shallow embedding of [py_event/Event.py] and
    [py_event/EventDispatcher.py].

    Python objects are referred to by identity.  A listener table is a
    [dict] (insertion ordered) whose values are references to [list]
    objects; the dispatcher iterates over the very dict and the very
    lists an event owns, so the embedding keeps the list objects in a
    store of the event and lets the dict hold references into it.

    Listeners are code of the application.  What a listener does is a
    parameter of the model: the calls of the public interface it makes
    ([trigger], [register_listener], [unregister_method],
    [unregister_object], assignments to [exit]) and the exception it
    may raise.  Not modelled: the end of the lifetime of objects (the
    weak reference callback), owners that cannot be weakly referenced,
    callables that are neither functions nor methods of such objects,
    and calls of [loop] from within a listener.

    The class attributes [EventDispatcher.__instance] and
    [Event.__event_dispatcher] are modelled apart, in [Singleton], as
    the state of a process under the calls an application makes; a run
    of [__del__], called or made by the interpreter, is one of these
    calls. *)

From stdpp Require Import base strings option numbers functions relations list.

Set Default Proof Using "Type".
Open Scope list_scope.

(** ** Values *)

(** Identity of a listener object.  A [weakref.ref] compares and hashes
    by its referent, so the keys of a listener table are owners. *)
Definition owner := nat.

(** Identity of a function object ([method.__func__]). *)
Definition func := nat.

(** Identity of an [Event] object. *)
Definition event_id := nat.

(** [Any]: event data and listener data. *)
Inductive Any :=
| PyNone
| PyBool (b : bool)
| PyInt (z : Z)
| PyStr (s : string).

(** What [register_listener] and [unregister_method] receive: a method
    bound to an object (it has [__self__] and [__func__]) or a plain
    function (it has no [__self__]). *)
Inductive callable_ :=
| BoundMethod (self : owner) (fn : func)
| Function (fn : func).

(** Exceptions.  [SystemExit] and [KeyboardInterrupt] derive from
    [BaseException] only; the others are instances of [Exception]. *)
Inductive exc :=
| ValueError
| KeyError
| RuntimeError
| UserError (n : nat)
| SystemExit
| KeyboardInterrupt.

Definition is_Exception (x : exc) : bool :=
  match x with
  | SystemExit | KeyboardInterrupt => false
  | _ => true
  end.

Inductive result (A : Type) :=
| Ok (a : A)
| Err (x : exc).
Arguments Ok {A} a.
Arguments Err {A} x.

#[global] Instance Any_eq_dec : EqDecision Any.
Proof. solve_decision. Defined.
#[global] Instance callable_eq_dec : EqDecision callable_.
Proof. solve_decision. Defined.
#[global] Instance exc_eq_dec : EqDecision exc.
Proof. solve_decision. Defined.

(** ** Python containers *)

Module Py.

Section Dict.
Context {V : Type}.

(** [k in d] *)
Definition contains (k : nat) (d : list (nat * V)) : bool :=
  bool_decide (k ∈ d.*1).

(** [d[k]] *)
Fixpoint get (k : nat) (d : list (nat * V)) : option V :=
  match d with
  | [] => None
  | (k', v) :: d' => if decide (k' = k) then Some v else get k d'
  end.

(** [del d[k]] *)
Fixpoint del (k : nat) (d : list (nat * V)) : list (nat * V) :=
  match d with
  | [] => []
  | (k', v) :: d' => if decide (k' = k) then d' else (k', v) :: del k d'
  end.

(** [d[k] = v] for a key that is not in [d]: the entry goes last. *)
Definition add (k : nat) (v : V) (d : list (nat * V)) : list (nat * V) :=
  d ++ [(k, v)].
End Dict.

End Py.

(** ** Event.py *)

Module Event.

(** [__listeners : Dict[ReferenceType, List[Tuple[callable, Any]]]].
    [listeners] is the dict, each value a reference into [heap], the
    list objects this event has created.  ([__emitter] is only stored
    and returned; it is left out.) *)
Record t := mk {
  listeners : list (owner * nat);
  heap : list (list (func * Any))
}.

(** [Event(emitter)]: [self.__listeners = {}] *)
Definition new : t := mk [] [].

(** The list object behind a reference. *)
Definition cell (ev : t) (a : nat) : list (func * Any) :=
  default [] (heap ev !! a).

(** [for key in range(len(listeners) - 1, -1, -1):
       if listeners[key][0] == method.__func__: del listeners[key]]
    [purge f n l] runs the iterations for key = n-1, ..., 0. *)
Fixpoint purge (f : func) (n : nat) (l : list (func * Any)) : list (func * Any) :=
  match n with
  | 0 => l
  | S key =>
      purge f key
        (match l !! key with
         | Some (g, _) => if decide (g = f) then delete key l else l
         | None => l
         end)
  end.

(** [unregister_object(instance)] *)
Definition unregister_object (instance : owner) (ev : t) : t :=
  if Py.contains instance (listeners ev)
  then mk (Py.del instance (listeners ev)) (heap ev)
  else ev.

(** [unregister_method(method)] *)
Definition unregister_method (method : callable_) (ev : t) : t :=
  match method with
  | Function _ => ev
  | BoundMethod self fn =>
      match Py.get self (listeners ev) with
      | None => ev
      | Some a =>
          let l := purge fn (length (cell ev a)) (cell ev a) in
          let ev' := mk (listeners ev) (<[a := l]> (heap ev)) in
          match l with
          | [] => mk (Py.del self (listeners ev')) (heap ev')
          | _ :: _ => ev'
          end
      end
  end.

(** [register_listener(method, listener_data)] *)
Definition register_listener (method : callable_) (listener_data : Any)
    (ev : t) : result t :=
  match method with
  | Function _ => Err ValueError
  | BoundMethod self fn =>
      let ev' :=
        if Py.contains self (listeners ev) then ev
        else mk (Py.add self (length (heap ev)) (listeners ev)) (heap ev ++ [[]]) in
      match Py.get self (listeners ev') with
      | Some a =>
          Ok (mk (listeners ev')
                 (alter (λ l, l ++ [(fn, listener_data)]) a (heap ev')))
      | None => Err KeyError
      end
  end.

(** [internal_unregister_listener(listener_ref)]: [del] without a test. *)
Definition internal_unregister_listener (listener_ref : owner) (ev : t) : result t :=
  if Py.contains listener_ref (listeners ev)
  then Ok (mk (Py.del listener_ref (listeners ev)) (heap ev))
  else Err KeyError.

(** [internal_get_listeners()]: the dict itself, not a copy. *)
Definition internal_get_listeners (ev : t) : list (owner * nat) := listeners ev.

(** *** The listener table as a value *)

(** The owners that are keys, in dict order. *)
Definition keys (ev : t) : list owner := (listeners ev).*1.

(** The sequence registered for an owner; empty when it is no key. *)
Definition sequence (ev : t) (o : owner) : list (func * Any) :=
  match Py.get o (listeners ev) with
  | Some a => cell ev a
  | None => []
  end.

(** Well-formed events: keys are distinct, no two keys share a list
    object, every reference is live and no list under a key is empty. *)
Record ok (ev : t) : Prop := {
  ok_keys : NoDup (listeners ev).*1;
  ok_refs : NoDup (listeners ev).*2;
  ok_cells : ∀ o a, (o, a) ∈ listeners ev → ∃ l, heap ev !! a = Some l ∧ l ≠ []
}.

End Event.

(** ** EventDispatcher.py *)

Module EventDispatcher.

(** The three events a dispatcher owns ([__event_loop_start],
    [__event_loop_end], [__event_queue_empty]). *)
Definition event_loop_start : event_id := 0.
Definition event_loop_end : event_id := 1.
Definition event_queue_empty : event_id := 2.

(** The dispatcher, the [Event] objects and the state of the
    application objects ([U], opaque to the dispatcher). *)
Record World (U : Type) := mkWorld {
  events : event_id → Event.t;
  queue : list (event_id * Any);
  exit : bool;
  user : U
}.
Arguments mkWorld {U} _ _ _ _.
Arguments events {U} _ _.
Arguments queue {U} _.
Arguments exit {U} _.
Arguments user {U} _.

(** What a listener does to the event system while it runs: the calls
    of the public interface, in order.  [Throw] is an exception that
    leaves the listener. *)
Inductive action (U : Type) :=
  | Trigger (e : event_id) (d : Any)
  | Register (e : event_id) (m : callable_) (ld : Any)
  | UnregisterMethod (e : event_id) (m : callable_)
  | UnregisterObject (e : event_id) (o : owner)
  | SetExit (b : bool)
  | SetUser (u : U)
  | Throw (x : exc).
Arguments Trigger {U} e d.
Arguments Register {U} e m ld.
Arguments UnregisterMethod {U} e m.
Arguments UnregisterObject {U} e o.
Arguments SetExit {U} b.
Arguments SetUser {U} u.
Arguments Throw {U} x.

(** The five calls of [__dispatch_event] in [loop]. *)
Inductive site := AtLoopStart | PreDrain | Popped | InDrain | AtLoopEnd.

(** What an observer of a run sees.  [ODispatch] carries the value of
    [exit] at the moment the dispatch starts. *)
Inductive obs :=
  | ODispatch (s : site) (e : event_id) (d : Any) (x : bool)
  | OCall (f : func) (o : owner) (e : event_id) (d ld : Any)
  | OTraceback (x : exc)
  | OQueued (e : event_id) (d : Any)
  | OExit (b : bool)
  | OLoopExit.

(** A run: the state and what has been observed so far. *)
Record Run (U : Type) := mkRun {
  world : World U;
  trace : list obs
}.
Arguments mkRun {U} _ _.
Arguments world {U} _.
Arguments trace {U} _.

(** How a call ends: it returns, an exception leaves it, or the fuel
    of the model is used up. *)
Inductive outcome (U : Type) :=
  | Done (r : Run U)
  | Raised (x : exc) (r : Run U)
  | OutOfFuel (r : Run U).
Arguments Done {U} r.
Arguments Raised {U} x r.
Arguments OutOfFuel {U} r.

(** The run at the end of a call, however it ended. *)
Definition run_of {U} (o : outcome U) : Run U :=
  match o with Done r | Raised _ r | OutOfFuel r => r end.

Definition bind {U} (o : outcome U) (k : Run U → outcome U) : outcome U :=
  match o with
  | Done r => k r
  | other => other
  end.

Notation "r ← o ; k" := (bind o (λ r, k))
  (at level 20, o at level 100, k at level 200, right associativity,
   format "r  ←  o ;  '/' k").

Definition is_call (o : obs) : bool :=
  match o with OCall _ _ _ _ _ => true | _ => false end.

Section Model.
Context {U : Type}.

(** [listener_ref()] yields an object and [if listener_object:]
    takes it for true. *)
Variable resolve : owner → bool.

(** The code of the listeners: [body f o e d ld w] is what
    [f(o, e, d, ld)] does when it is called in [w]. *)
Variable body : func → owner → event_id → Any → Any → World U → list (action U).

Definition log (o : obs) (r : Run U) : Run U :=
  mkRun (world r) (trace r ++ [o]).

Definition with_world (f : World U → World U) (r : Run U) : Run U :=
  mkRun (f (world r)) (trace r).

Definition set_event (e : event_id) (ev : Event.t) (w : World U) : World U :=
  mkWorld (<[e := ev]> (events w)) (queue w) (exit w) (user w).
Definition set_queue (q : list (event_id * Any)) (w : World U) : World U :=
  mkWorld (events w) q (exit w) (user w).
Definition set_exit (b : bool) (w : World U) : World U :=
  mkWorld (events w) (queue w) b (user w).
Definition set_user (u : U) (w : World U) : World U :=
  mkWorld (events w) (queue w) (exit w) u.

(** [queue_size()] *)
Definition queue_size (w : World U) : nat := length (queue w).

(** [internal_queue_event(event, event_data)] *)
Definition internal_queue_event (e : event_id) (d : Any) (r : Run U) : Run U :=
  log (OQueued e d) (with_world (λ w, set_queue (queue w ++ [(e, d)]) w) r).

(** [Event.trigger(event_data)], the dispatcher being bound. *)
Definition trigger (e : event_id) (d : Any) (r : Run U) : Run U :=
  internal_queue_event e d r.

(** One call of the interface by a listener. *)
Definition perform (a : action U) (r : Run U) : Run U * option exc :=
  match a with
  | Trigger e d => (trigger e d r, None)
  | Register e m ld =>
      match Event.register_listener m ld (events (world r) e) with
      | Ok ev => (with_world (set_event e ev) r, None)
      | Err x => (r, Some x)
      end
  | UnregisterMethod e m =>
      (with_world (set_event e (Event.unregister_method m (events (world r) e))) r, None)
  | UnregisterObject e o =>
      (with_world (set_event e (Event.unregister_object o (events (world r) e))) r, None)
  | SetExit b => (log (OExit b) (with_world (set_exit b) r), None)
  | SetUser u => (with_world (set_user u) r, None)
  | Throw x => (r, Some x)
  end.

(** The calls of a listener in order, up to the first exception. *)
Fixpoint run_actions (acts : list (action U)) (r : Run U) : Run U * option exc :=
  match acts with
  | [] => (r, None)
  | a :: rest =>
      match perform a r with
      | (r', None) => run_actions rest r'
      | (r', Some x) => (r', Some x)
      end
  end.

(** [function(listener_object, event, event_data, listener_data)] *)
Definition call (f : func) (o : owner) (e : event_id) (d ld : Any)
    (r : Run U) : Run U * option exc :=
  run_actions (body f o e d ld (world r)) (log (OCall f o e d ld) r).

(** [for function, listener_data in listeners[listener_ref]:
       try: function(...) except Exception: traceback.print_exc()]
    A list iterator is an index into the list object [a]; each step
    reads the list as it is then. *)
Fixpoint for_callbacks (fuel : nat) (o : owner) (e : event_id) (d : Any)
    (a j : nat) (r : Run U) : outcome U :=
  match fuel with
  | 0 => OutOfFuel r
  | S n =>
      match Event.cell (events (world r) e) a !! j with
      | None => Done r
      | Some (f, ld) =>
          match call f o e d ld r with
          | (r', None) => for_callbacks n o e d a (S j) r'
          | (r', Some x) =>
              if is_Exception x
              then for_callbacks n o e d a (S j) (log (OTraceback x) r')
              else Raised x r'
          end
      end
  end.

(** [for listener_ref in listeners:] over the dict of the event
    itself.  A dict iterator is a position and the size the dict
    had when the loop started; each step raises [RuntimeError]
    (dictionary changed size during iteration) when the size is no
    longer that one. *)
Fixpoint for_owners (fuel : nat) (e : event_id) (d : Any)
    (size i : nat) (r : Run U) : outcome U :=
  match fuel with
  | 0 => OutOfFuel r
  | S n =>
      let listeners := Event.internal_get_listeners (events (world r) e) in
      if negb (length listeners =? size) then Raised RuntimeError r
      else
        match listeners !! i with
        | None => Done r
        | Some (o, a) =>
            if resolve o
            then r' ← for_callbacks n o e d a 0 r; for_owners n e d size (S i) r'
            else for_owners n e d size (S i) r
        end
  end.

(** [__dispatch_event(event, event_data)], called at [s]. *)
Definition dispatch_event (fuel : nat) (s : site) (e : event_id) (d : Any)
    (r : Run U) : outcome U :=
  let r := log (ODispatch s e d (exit (world r))) r in
  for_owners fuel e d (length (Event.internal_get_listeners (events (world r) e))) 0 r.

(** Lines 132-135: after the dispatch of a popped event. *)
Definition check_empty (fuel : nat) (r : Run U) : outcome U :=
  if bool_decide (queue (world r) = []) && negb (exit (world r))
  then
    r' ← dispatch_event fuel InDrain event_queue_empty PyNone r;
    if bool_decide (queue (world r') = [])
    then Done (log OLoopExit (with_world (set_exit true) r'))
    else Done r'
  else Done r.

(** [while self.__queue:] *)
Fixpoint drain (fuel : nat) (r : Run U) : outcome U :=
  match fuel with
  | 0 => OutOfFuel r
  | S n =>
      match queue (world r) with
      | [] => Done r
      | (e, d) :: q =>
          r1 ← dispatch_event n Popped e d (with_world (set_queue q) r);
          r2 ← check_empty n r1;
          drain n r2
      end
  end.

(** [loop()] *)
Definition loop (fuel : nat) (r : Run U) : outcome U :=
  r1 ← dispatch_event fuel AtLoopStart event_loop_start PyNone r;
  r2 ← (if negb (exit (world r1)) && bool_decide (queue (world r1) = [])
        then dispatch_event fuel PreDrain event_queue_empty PyNone r1
        else Done r1);
  r3 ← drain fuel r2;
  dispatch_event fuel AtLoopEnd event_loop_end PyNone r3.

(** A run that starts in [w]. *)
Definition start (w : World U) : Run U := mkRun w [].

(** *** The run as a transition system *)

(** A listener at work: it is called, it calls the interface, or the
    exception it raised is reported. *)
Inductive lstep : Run U → Run U → Prop :=
| lstep_call f o e d ld r :
    lstep r (log (OCall f o e d ld) r)
| lstep_perform f o e d ld w a r :
    a ∈ body f o e d ld w → lstep r (perform a r).1
| lstep_traceback x r :
    lstep r (log (OTraceback x) r).

(** The dispatcher at work: an event is popped and its dispatch starts,
    one of the events of the dispatcher is dispatched, or [loop] sets
    [exit].  The two dispatches of [event_queue_empty] are guarded. *)
Inductive step : Run U → Run U → Prop :=
| step_listener r r' :
    lstep r r' → step r r'
| step_pop e d q r :
    queue (world r) = (e, d) :: q →
    step r (log (ODispatch Popped e d (exit (world r))) (with_world (set_queue q) r))
| step_start r :
    step r (log (ODispatch AtLoopStart event_loop_start PyNone (exit (world r))) r)
| step_end r :
    step r (log (ODispatch AtLoopEnd event_loop_end PyNone (exit (world r))) r)
| step_notify s r :
    s = PreDrain ∨ s = InDrain →
    exit (world r) = false → queue (world r) = [] →
    step r (log (ODispatch s event_queue_empty PyNone false) r)
| step_loop_exit r :
    queue (world r) = [] →
    step r (log OLoopExit (with_world (set_exit true) r)).

(** *** What the claims speak about *)

(** The calls for one entry of the dict: none when the owner does not
    resolve, else one for each pair of its list. *)
Definition entry_calls (e : event_id) (d : Any) (ev : Event.t) (oa : owner * nat) : list obs :=
  if resolve oa.1 then (λ c, OCall c.1 oa.1 e d c.2) <$> Event.cell ev oa.2 else [].

(** The listener table of [ev] read once, at the start of a dispatch of
    [e] with [d]: the calls a dispatch makes when nothing changes the
    table meanwhile. *)
Definition snapshot (e : event_id) (d : Any) (ev : Event.t) : list obs :=
  Event.listeners ev ≫= entry_calls e d ev.

(** Fuel that is enough to go through the table of [ev] once. *)
Definition cost (ev : Event.t) : nat :=
  length (Event.listeners ev)
  + sum_list ((λ oa, length (Event.cell ev oa.2)) <$> Event.listeners ev).

(** The action registers or unregisters a listener of [e]. *)
Definition touches (e : event_id) (a : action U) : bool :=
  match a with
  | Register e' _ _ | UnregisterMethod e' _ | UnregisterObject e' _ => bool_decide (e' = e)
  | _ => false
  end.

(** No listener called in a dispatch of [e] with [d] out of the table
    [ev] registers or unregisters a listener of [e]. *)
Definition static (e : event_id) (d : Any) (ev : Event.t) : Prop :=
  ∀ f o ld w a,
    OCall f o e d ld ∈ snapshot e d ev → a ∈ body f o e d ld w → touches e a = false.

(** The listeners of the table raise instances of [Exception] only. *)
Definition catchable (e : event_id) (d : Any) (ev : Event.t) : Prop :=
  ∀ f o ld w x,
    OCall f o e d ld ∈ snapshot e d ev → Throw x ∈ body f o e d ld w → is_Exception x = true.

(** [x] is raised by one of the listeners called in [all]. *)
Definition thrown (x : exc) (all : list obs) : Prop :=
  ∃ f o e d ld w, OCall f o e d ld ∈ all ∧ Throw x ∈ body f o e d ld w.

(** [out], started in [r], made the calls [all] one after the other and
    left the table of [e] as it was; it stopped early only because a
    listener raised an exception that is no instance of [Exception]. *)
Definition runs_through (out : outcome U) (r : Run U) (e : event_id) (all : list obs) : Prop :=
  ∃ r', events (world r') e = events (world r) e
    ∧ ((out = Done r'
        ∧ filter is_call (trace r') = filter is_call (trace r) ++ all)
       ∨ (∃ x pre, out = Raised x r' ∧ is_Exception x = false ∧ thrown x all
            ∧ pre `prefix_of` all
            ∧ filter is_call (trace r') = filter is_call (trace r) ++ pre)).

(** No listener assigns [exit]. *)
Definition exit_untouched : Prop :=
  ∀ f o e d ld w b, SetExit b ∉ body f o e d ld w.

(** No listener sets [exit] back to [False]. *)
Definition exit_never_cleared : Prop :=
  ∀ f o e d ld w, SetExit false ∉ body f o e d ld w.

End Model.

(** *** Reading a trace *)

(** The calls of listeners, in order. *)
Definition calls (tr : list obs) : list obs := filter is_call tr.

(** The reports of [traceback.print_exc()], in order. *)
Definition tracebacks (tr : list obs) : list exc :=
  omap (λ o, match o with OTraceback x => Some x | _ => None end) tr.

(** The dispatches, in order: where from, which event, which data. *)
Definition dispatches (tr : list obs) : list (site * event_id * Any) :=
  omap (λ o, match o with ODispatch s e d _ => Some (s, e, d) | _ => None end) tr.

(** The events popped from the queue and dispatched, in order. *)
Definition popped (tr : list obs) : list (event_id * Any) :=
  omap (λ o, match o with ODispatch Popped e d _ => Some (e, d) | _ => None end) tr.

(** The events put on the queue, in order. *)
Definition queued (tr : list obs) : list (event_id * Any) :=
  omap (λ o, match o with OQueued e d => Some (e, d) | _ => None end) tr.

(** A dispatch of [event_queue_empty] made by one of the two checks of
    [loop]. *)
Definition is_notification (o : obs) : bool :=
  match o with
  | ODispatch PreDrain _ _ _ | ODispatch InDrain _ _ _ => true
  | _ => false
  end.

(** The observation shows [exit] to be true at that moment. *)
Definition exit_seen (o : obs) : bool :=
  match o with
  | ODispatch _ _ _ true | OExit true | OLoopExit => true
  | _ => false
  end.

(** Once [exit] has been seen true, [event_queue_empty] is not
    dispatched by [loop] any more. *)
Definition quiet_after_exit (tr : list obs) : Prop :=
  ∀ i j o1 o2,
    tr !! i = Some o1 → tr !! j = Some o2 → i ≤ j →
    exit_seen o1 = true → is_notification o2 = false.

(** The observation is made of a listener, not of [loop] itself. *)
Definition by_listener (o : obs) : bool :=
  match o with
  | OCall _ _ _ _ _ | OTraceback _ | OQueued _ _ | OExit _ => true
  | ODispatch _ _ _ _ | OLoopExit => false
  end.

(** First in, first out: the events dispatched so far followed by the
    events that wait are the events that were on the queue at the start
    followed by the events triggered since, in the order of the
    triggers. *)
Definition fifo {U} (q0 : list (event_id * Any)) (r : Run U) : Prop :=
  popped (trace r) ++ queue (world r) = q0 ++ queued (trace r).

(** [exit], once seen true, stays true as long as no listener clears
    it, and the checks of [loop] then dispatch nothing. *)
Definition settled (tr : list obs) (x : bool) : Prop :=
  quiet_after_exit tr ∧ (Exists (λ ob, exit_seen ob = true) tr → x = true).

(** Both checks of [loop] are guarded: a dispatch of
    [event_queue_empty] by [loop] starts with [exit] false. *)
Definition guarded (o : obs) : bool :=
  match o with
  | ODispatch PreDrain e _ x | ODispatch InDrain e _ x =>
      negb x && bool_decide (e = event_queue_empty)
  | _ => true
  end.

(** The call returned. *)
Definition returned {U} (out : outcome U) : bool :=
  match out with Done _ => true | _ => false end.

(** The exception that left the call, if one did. *)
Definition failure {U} (out : outcome U) : option exc :=
  match out with Raised x _ => Some x | _ => None end.

(** The sites inside the drain loop and before it. *)
Definition drain_site (s : site) : bool :=
  match s with
  | PreDrain | Popped | InDrain => true
  | AtLoopStart | AtLoopEnd => false
  end.

(** From [r] to [r'] only dispatches of the drain loop were made. *)
Definition drained {U} (r r' : Run U) : Prop :=
  ∃ mid, dispatches (trace r') = dispatches (trace r) ++ mid
    ∧ Forall (λ t, drain_site t.1.1 = true) mid.

End EventDispatcher.

(** ** Small systems to run the model on *)

Module Samples.
Import EventDispatcher.

(** Every owner is alive and true. *)
Definition all_alive (o : owner) : bool := true.

(** An event with one owner, 1, and the listeners [fs] in that order,
    all with listener data [None]. *)
Definition one_owner (fs : list func) : Event.t :=
  Event.mk [(1, 0)] [(λ f, (f, PyNone)) <$> fs].

(** No events but the given ones have listeners. *)
Definition system (tables : list (event_id * Event.t)) (q : list (event_id * Any))
    (x : bool) : World unit :=
  mkWorld (λ e, default Event.new (Py.get e tables)) q x tt.

(** Listeners that do nothing. *)
Definition idle (f : func) (o : owner) (e : event_id) (d ld : Any) (w : World unit)
  : list (action unit) := [].

(** Listener 10 registers listener 11 of its own object on event 5. *)
Definition grow (f : func) (o : owner) (e : event_id) (d ld : Any) (w : World unit)
    : list (action unit) :=
  if decide (f = 10) then [Register 5 (BoundMethod o 11) PyNone] else [].

(** Listener 10 registers listener 11 of another object, 2, on event 5. *)
Definition invite (f : func) (o : owner) (e : event_id) (d ld : Any) (w : World unit)
    : list (action unit) :=
  if decide (f = 10) then [Register 5 (BoundMethod 2 11) PyNone] else [].

(** Listener 10 unregisters itself from event 5. *)
Definition leave (f : func) (o : owner) (e : event_id) (d ld : Any) (w : World unit)
    : list (action unit) :=
  if decide (f = 10) then [UnregisterMethod 5 (BoundMethod o 10)] else [].

(** Listener 40 sets [exit], listener 41 clears it. *)
Definition toggle (f : func) (o : owner) (e : event_id) (d ld : Any) (w : World unit)
    : list (action unit) :=
  if decide (f = 40) then [SetExit true]
  else if decide (f = 41) then [SetExit false] else [].

(** Listener 60 raises, listener 61 triggers event 7. *)
Definition faulty (f : func) (o : owner) (e : event_id) (d ld : Any) (w : World unit)
    : list (action unit) :=
  if decide (f = 60) then [Throw (UserError 1)]
  else if decide (f = 61) then [Trigger 7 PyNone] else [].

(** The listener of test_run_to_completion: when the event data is
    [True] it triggers the event again with [False]. *)
Definition again (f : func) (o : owner) (e : event_id) (d ld : Any) (w : World unit)
    : list (action unit) :=
  if decide (d = PyBool true) then [Trigger e (PyBool false)] else [].

(** The listener of test_event_queue_empty: an object that counts down
    and triggers its event 9 until it has reached 0.  The state of the
    application is the counter. *)
Definition countdown (f : func) (o : owner) (e : event_id) (d ld : Any) (w : World nat)
    : list (action nat) :=
  if decide (user w = 0) then [] else [Trigger 9 PyNone; SetUser (user w - 1)].

End Samples.

(** An event with one owner and one listener. *)
Definition sample_event : Event.t := Event.mk [(1, 0)] [[(10, PyStr "spam")]].

(** ** Several registrations in a row *)

(** [register_listener] called for each bound method of [regs] in
    turn. *)
Fixpoint register_all (regs : list (owner * func * Any)) (ev : Event.t) : Event.t :=
  match regs with
  | [] => ev
  | (o, f, ld) :: rest =>
      match Event.register_listener (BoundMethod o f) ld ev with
      | Ok ev' => register_all rest ev'
      | Err _ => ev
      end
  end.

(** The keys of a table after the owners [os] have registered in that
    order: an owner that is a key stays where it is, a new one goes
    last. *)
Definition keys_after (ks : list owner) (os : list owner) : list owner :=
  foldl (λ ks o, if bool_decide (o ∈ ks) then ks else ks ++ [o]) ks os.

(** What [regs] registers for [o], in order. *)
Definition registered_for (o : owner) (regs : list (owner * func * Any)) : list (func * Any) :=
  omap (λ r, if decide (r.1.1 = o) then Some (r.1.2, r.2) else None) regs.

(** ** One dispatcher for the process *)

Module Singleton.

(** An [EventDispatcher] object as [__init__] leaves it. *)
Record dispatcher := mkDispatcher {
  d_event_loop_start : Event.t;
  d_event_loop_end : Event.t;
  d_event_queue_empty : Event.t;
  d_queue : list (event_id * Any);
  d_is_running : bool;
  d_exit : bool
}.

Definition fresh : dispatcher :=
  mkDispatcher Event.new Event.new Event.new [] false false.

(** The class attributes [EventDispatcher.__instance] and
    [Event.__event_dispatcher], and the dispatcher objects made so far,
    referred to by their position. *)
Record process := mkProcess {
  instance_ : option nat;
  event_dispatcher : option nat;
  objects : list dispatcher
}.

(** The process before anything is called. *)
Definition boot : process := mkProcess None None [].

(** [EventDispatcher()]: [__init__] tests [__instance] and does not set
    it. *)
Definition init (p : process) : result (nat * process) :=
  match instance_ p with
  | Some _ => Err RuntimeError
  | None =>
      Ok (length (objects p),
          mkProcess (instance_ p) (event_dispatcher p) (objects p ++ [fresh]))
  end.

(** [Event.internal_set_dispatcher(dispatcher)] *)
Definition internal_set_dispatcher (i : nat) (p : process) : process :=
  mkProcess (instance_ p) (Some i) (objects p).

(** [EventDispatcher.instance()] *)
Definition instance (p : process) : result (nat * process) :=
  match instance_ p with
  | Some i => Ok (i, p)
  | None =>
      match init p with
      | Ok (i, p') =>
          Ok (i, internal_set_dispatcher i
                   (mkProcess (Some i) (event_dispatcher p') (objects p')))
      | Err x => Err x
      end
  end.

(** [__del__] of a dispatcher runs: called as the tests do in
    [tearDown], or by the interpreter when a dispatcher object is
    reclaimed, be it one whose [__init__] raised.  The object stays in
    [objects]. *)
Definition del (p : process) : process :=
  mkProcess None (event_dispatcher p) (objects p).

(** [internal_queue_event(event, event_data)] of the dispatcher [i]. *)
Definition internal_queue_event (i : nat) (e : event_id) (d : Any) (p : process) : process :=
  mkProcess (instance_ p) (event_dispatcher p)
    (alter (λ o, mkDispatcher (d_event_loop_start o) (d_event_loop_end o)
                   (d_event_queue_empty o) (d_queue o ++ [(e, d)])
                   (d_is_running o) (d_exit o))
       i (objects p)).

(** [Event.trigger(event_data)]: [None] is the [AttributeError] of
    calling [internal_queue_event] on [None]. *)
Definition trigger (e : event_id) (d : Any) (p : process) : option process :=
  match event_dispatcher p with
  | None => None
  | Some i => Some (internal_queue_event i e d p)
  end.

(** [queue_size()] of the dispatcher [i]. *)
Definition queue_size (i : nat) (p : process) : nat :=
  match objects p !! i with
  | Some o => length (d_queue o)
  | None => 0
  end.

(** The calls an application makes. *)
Inductive call :=
| Call_init
| Call_instance
| Call_trigger (e : event_id) (d : Any)
| Call_del.

#[global] Instance call_eq_dec : EqDecision call.
Proof. solve_decision. Defined.

(** The process after a call; a call that raises leaves it as it
    was.  Every run of [__del__] is a [Call_del] of its own. *)
Definition exec1 (p : process) (c : call) : process :=
  match c with
  | Call_init => match init p with Ok (_, p') => p' | Err _ => p end
  | Call_instance => match instance p with Ok (_, p') => p' | Err _ => p end
  | Call_trigger e d => match trigger e d p with Some p' => p' | None => p end
  | Call_del => del p
  end.

Definition exec (cs : list call) (p : process) : process := foldl exec1 p cs.

(** What holds of every process the calls can lead to: the dispatcher
    of [instance()] is the one events are bound to, and both refer to
    objects that exist. *)
Definition wf (p : process) : Prop :=
  (∀ i, instance_ p = Some i → event_dispatcher p = Some i)
  ∧ (∀ i, event_dispatcher p = Some i → i < length (objects p)).

(** The queue of the dispatcher [i]. *)
Definition queue_of (i : nat) (p : process) : list (event_id * Any) :=
  default [] (d_queue <$> objects p !! i).

(** The events the calls trigger, in order. *)
Definition triggered (cs : list call) : list (event_id * Any) :=
  omap (λ c, match c with Call_trigger e d => Some (e, d) | _ => None end) cs.

(** The calls that trigger the events [ts] in turn. *)
Definition triggers (ts : list (event_id * Any)) : list call :=
  (λ t, Call_trigger t.1 t.2) <$> ts.

End Singleton.

(** ** Run to completion *)

(** The event and data of the dispatch in progress after [tr]. *)
Definition current (cur : option (event_id * Any)) (tr : list EventDispatcher.obs)
    : option (event_id * Any) :=
  foldl (λ cur ob, match ob with
                   | EventDispatcher.ODispatch _ e d _ => Some (e, d)
                   | _ => cur
                   end) cur tr.

(** Every call of a listener in [tr] is made for the event and the data
    of the latest dispatch that started before it, and on an owner that
    resolves. *)
Fixpoint nested (resolve : owner → bool) (cur : option (event_id * Any))
    (tr : list EventDispatcher.obs) : bool :=
  match tr with
  | [] => true
  | EventDispatcher.ODispatch _ e d _ :: tr' => nested resolve (Some (e, d)) tr'
  | EventDispatcher.OCall _ o e d _ :: tr' =>
      bool_decide (cur = Some (e, d)) && resolve o && nested resolve cur tr'
  | _ :: tr' => nested resolve cur tr'
  end.

(** The observation may be made while [e] is dispatched with [d]. *)
Definition belongs (resolve : owner → bool) (e : event_id) (d : Any)
    (ob : EventDispatcher.obs) : bool :=
  match ob with
  | EventDispatcher.OCall _ o e' d' _ =>
      bool_decide (e' = e) && bool_decide (d' = d) && resolve o
  | EventDispatcher.ODispatch _ _ _ _ | EventDispatcher.OLoopExit => false
  | _ => true
  end.

(** ** Listeners that leave the event system alone *)

(** A listener that triggers no event and registers or unregisters no
    listener, and raises instances of [Exception] only.  It may assign
    [exit] and change the state of the application. *)
Definition quiet_action {U} (a : EventDispatcher.action U) : bool :=
  match a with
  | EventDispatcher.SetExit _ | EventDispatcher.SetUser _ => true
  | EventDispatcher.Throw x => is_Exception x
  | _ => false
  end.

Definition quiet {U}
    (body : func → owner → event_id → Any → Any → EventDispatcher.World U
            → list (EventDispatcher.action U)) : Prop :=
  ∀ f o e d ld w a, a ∈ body f o e d ld w → quiet_action a = true.

(** * Properties of the listener table *)

Lemma filter_all {A} (P : A → Prop) `{∀ x, Decision (P x)} (l : list A) :
  Forall P l → filter P l = l.
Proof.
  induction 1 as [|x l Hx _ IH]; [done|].
  by rewrite filter_cons_True, IH.
Qed.

Lemma filter_none {A} (P : A → Prop) `{∀ x, Decision (P x)} (l : list A) :
  Forall (λ x, ¬ P x) l → filter P l = [].
Proof.
  induction 1 as [|x l Hx _ IH]; [done|].
  by rewrite filter_cons_False.
Qed.

Section DictFacts.
Context {V : Type}.
Implicit Types (d : list (nat * V)) (k : nat) (v : V).

Lemma contains_true k d : Py.contains k d = true ↔ k ∈ d.*1.
Proof. unfold Py.contains. by rewrite bool_decide_eq_true. Qed.

Lemma contains_false k d : Py.contains k d = false ↔ k ∉ d.*1.
Proof. unfold Py.contains. by rewrite bool_decide_eq_false. Qed.

Lemma get_Some_elem k v d : Py.get k d = Some v → (k, v) ∈ d.
Proof.
  induction d as [|[k' v'] d IH]; simpl; [done|].
  case_decide; intros Hg.
  - simplify_eq. left.
  - right. by apply IH.
Qed.

Lemma get_None k d : Py.get k d = None ↔ k ∉ d.*1.
Proof.
  induction d as [|[k' v'] d IH]; simpl.
  - split; [intros _; apply not_elem_of_nil | done].
  - rewrite not_elem_of_cons, <- IH. case_decide as Hd.
    + split; [done | intros [Hne _]; by destruct Hne].
    + split; [intros Hg; split; [by intros ->|done] | by intros [_ Hg]].
Qed.

Lemma get_elem k v d : NoDup d.*1 → (k, v) ∈ d → Py.get k d = Some v.
Proof.
  induction d as [|[k' v'] d IH]; simpl; intros Hnd Hin.
  - by apply elem_of_nil in Hin.
  - apply NoDup_cons in Hnd as [Hk Hnd].
    apply elem_of_cons in Hin as [Heq|Hin].
    + simplify_eq. by rewrite decide_True.
    + rewrite decide_False; [by apply IH|].
      intros ->. apply Hk. apply list_elem_of_fmap. by exists (k, v).
Qed.

Lemma get_app k d1 d2 :
  Py.get k (d1 ++ d2) = match Py.get k d1 with Some v => Some v | None => Py.get k d2 end.
Proof.
  induction d1 as [|[k' v'] d1 IH]; simpl; [done|]. by case_decide.
Qed.

Lemma del_elem k k' v d :
  NoDup d.*1 → (k', v) ∈ Py.del k d ↔ (k', v) ∈ d ∧ k' ≠ k.
Proof.
  induction d as [|[k0 v0] d IH]; simpl; intros Hnd.
  - split; [intros H; by apply elem_of_nil in H | intros [H _]; by apply elem_of_nil in H].
  - apply NoDup_cons in Hnd as [Hk Hnd]. case_decide as Hd.
    + subst k0. rewrite elem_of_cons. split.
      * intros Hin. split; [by right|]. intros ->. apply Hk.
        apply list_elem_of_fmap. by exists (k, v).
      * intros [[Heq|Hin] Hne]; [simplify_eq | done].
    + rewrite !elem_of_cons, IH by done. split.
      * intros [Heq|[Hin Hne]]; [simplify_eq; split; [by left|done] | split; [by right|done]].
      * intros [[Heq|Hin] Hne]; [by left | by right].
Qed.

Lemma del_keys k d : NoDup d.*1 → (Py.del k d).*1 = filter (λ k', k' ≠ k) d.*1.
Proof.
  induction d as [|[k0 v0] d IH]; simpl; intros Hnd; [done|].
  apply NoDup_cons in Hnd as [Hk Hnd]. case_decide as Hd.
  - subst k0. rewrite filter_cons_False by (intros Hc; by apply Hc).
    symmetry. apply filter_all, Forall_forall. by intros x Hx ->.
  - rewrite filter_cons_True by done. rewrite fmap_cons. simpl. f_equal. by apply IH.
Qed.

Lemma del_sublist k d : Py.del k d `sublist_of` d.
Proof.
  induction d as [|[k0 v0] d IH]; simpl; [done|].
  case_decide; [by apply sublist_cons | by apply sublist_skip].
Qed.

Lemma get_del_ne k k' d : k' ≠ k → Py.get k' (Py.del k d) = Py.get k' d.
Proof.
  intros Hne. induction d as [|[k0 v0] d IH]; simpl; [done|].
  case_decide; simpl.
  - subst. by rewrite decide_False.
  - case_decide; [done | apply IH].
Qed.

Lemma get_del_eq k d : NoDup d.*1 → Py.get k (Py.del k d) = None.
Proof.
  intros Hnd. apply get_None. intros Hin.
  apply list_elem_of_fmap in Hin as [[k' v] [-> Hin]]. simpl in *.
  apply del_elem in Hin as [_ Hne]; done.
Qed.

End DictFacts.

Section EventFacts.
Implicit Types (ev : Event.t) (o : owner) (f : func) (l : list (func * Any)).

(** The descending loop of [unregister_method] deletes exactly the
    entries whose function is [f]. *)
Lemma purge_take_drop f n l :
  n ≤ length l →
  Event.purge f n l = filter (λ c, c.1 ≠ f) (take n l) ++ drop n l.
Proof.
  revert l. induction n as [|n IH]; intros l Hn; simpl.
  - done.
  - destruct (lookup_lt_is_Some_2 l n) as [[g x] Hl]; [lia|].
    rewrite Hl, (take_S_r _ _ _ Hl), filter_app.
    case_decide as Hg.
    + subst g. rewrite IH by (rewrite length_delete by eauto; lia).
      rewrite delete_take_drop.
      rewrite take_app_le, take_take, Nat.min_id by (rewrite length_take; lia).
      rewrite drop_app_length' by (rewrite length_take; lia).
      rewrite (filter_cons_False _ (f, x)) by (intros Hc; by apply Hc).
      by rewrite filter_nil, app_nil_r.
    + rewrite IH by lia. rewrite (drop_S _ _ _ Hl).
      rewrite (filter_cons_True _ (g, x)) by done.
      by rewrite filter_nil, <- app_assoc.
Qed.

Lemma purge_filter f l :
  Event.purge f (length l) l = filter (λ c, c.1 ≠ f) l.
Proof.
  rewrite purge_take_drop by done. by rewrite firstn_all, drop_all, app_nil_r.
Qed.

Lemma ok_new : Event.ok Event.new.
Proof.
  split; simpl; [apply NoDup_nil_2 | apply NoDup_nil_2 |].
  intros o a Hin. by apply elem_of_nil in Hin.
Qed.

Lemma ok_cell ev o a :
  Event.ok ev → (o, a) ∈ Event.listeners ev →
  Event.heap ev !! a = Some (Event.cell ev a) ∧ Event.cell ev a ≠ [].
Proof.
  intros Hok Hin. destruct (Event.ok_cells _ Hok o a Hin) as (l & Hl & Hne).
  unfold Event.cell. by rewrite Hl.
Qed.

Lemma ok_get ev o a :
  Event.ok ev → Py.get o (Event.listeners ev) = Some a ↔ (o, a) ∈ Event.listeners ev.
Proof.
  intros Hok. split; [apply get_Some_elem | apply get_elem, Hok].
Qed.

(** Two keys never share a list object. *)
Lemma ok_ref_inj ev o o' a :
  Event.ok ev → (o, a) ∈ Event.listeners ev → (o', a) ∈ Event.listeners ev → o = o'.
Proof.
  intros Hok H1 H2.
  apply list_elem_of_lookup in H1 as [i Hi], H2 as [j Hj].
  assert (i = j) as ->; [|congruence].
  eapply (NoDup_lookup _ i j a (Event.ok_refs _ Hok));
    rewrite list_lookup_fmap; [by rewrite Hi | by rewrite Hj].
Qed.

Lemma sequence_present ev o :
  Event.ok ev → o ∈ Event.keys ev ↔ Event.sequence ev o ≠ [].
Proof.
  intros Hok. unfold Event.sequence, Event.keys.
  destruct (Py.get o (Event.listeners ev)) as [a|] eqn:Hg.
  - apply ok_get in Hg as Hin; [|done]. split.
    + intros _. by apply (ok_cell ev o a).
    + intros _. apply list_elem_of_fmap. by exists (o, a).
  - apply get_None in Hg. split; [done | by intros []].
Qed.

(** [register_listener] with a bound method. *)
Lemma register_bound ev o f ld :
  Event.ok ev →
  ∃ ev', Event.register_listener (BoundMethod o f) ld ev = Ok ev'
    ∧ Event.ok ev'
    ∧ Event.sequence ev' o = Event.sequence ev o ++ [(f, ld)]
    ∧ (∀ o', o' ≠ o → Event.sequence ev' o' = Event.sequence ev o')
    ∧ Event.keys ev' =
        (if bool_decide (o ∈ Event.keys ev) then Event.keys ev else Event.keys ev ++ [o]).
Proof.
  intros Hok. unfold Event.register_listener, Py.contains, Event.keys.
  case_bool_decide as Hin.
  - destruct (Py.get o (Event.listeners ev)) as [a|] eqn:Hg;
      [|by apply get_None in Hg].
    apply ok_get in Hg as Ha; [|done].
    destruct (ok_cell ev o a Hok Ha) as [Hcell Hne].
    eexists. split; [done|]. split; [|split; [|split]].
    + split; simpl; [apply Hok | apply Hok |].
      intros o' a' Hin'. destruct (ok_cell ev o' a' Hok Hin') as [Hc' Hne'].
      rewrite list_lookup_alter. case_decide as Hd.
      * subst a'. rewrite Hcell. simpl. eexists. split; [done|].
        by destruct (Event.cell ev a).
      * eauto.
    + unfold Event.sequence, Event.cell. simpl. rewrite Hg.
      by rewrite list_lookup_alter_eq, Hcell.
    + intros o' Hne'. unfold Event.sequence, Event.cell. simpl.
      destruct (Py.get o' (Event.listeners ev)) as [a'|] eqn:Hg'; [|done].
      apply ok_get in Hg'; [|done].
      rewrite list_lookup_alter_ne; [done|].
      intros ->. apply Hne'. symmetry. by eapply ok_ref_inj.
    + simpl. by rewrite bool_decide_eq_true_2.
  - assert (Hfresh : ∀ o' a', (o', a') ∈ Event.listeners ev → a' < length (Event.heap ev)).
    { intros o' a' Hin'. destruct (ok_cell ev o' a' Hok Hin') as [Hc' _].
      by apply lookup_lt_Some in Hc'. }
    simpl. unfold Py.add. rewrite get_app.
    apply get_None in Hin as Hg. rewrite Hg. simpl. rewrite decide_True by done.
    eexists. split; [done|]. split; [|split; [|split]].
    + split; simpl.
      * rewrite fmap_app. apply NoDup_app. split; [apply Hok|]. split.
        -- intros x Hx Hx'. apply list_elem_of_singleton in Hx'. by subst.
        -- apply NoDup_singleton.
      * rewrite fmap_app. apply NoDup_app. split; [apply Hok|]. split.
        -- intros x Hx Hx'. apply list_elem_of_singleton in Hx'. simpl in Hx'. subst x.
           apply list_elem_of_fmap in Hx as [[o' a'] [Heq Hx]]. simpl in Heq. subst a'.
           apply Hfresh in Hx. lia.
        -- apply NoDup_singleton.
      * intros o' a' Hin'. rewrite list_lookup_alter.
        apply elem_of_app in Hin' as [Hin'|Hin'].
        -- destruct (ok_cell ev o' a' Hok Hin') as [Hc' Hne'].
           apply Hfresh in Hin' as Hlt. rewrite decide_False by lia.
           rewrite lookup_app_l by done. eauto.
        -- apply list_elem_of_singleton in Hin'. simplify_eq.
           rewrite decide_True by done.
           rewrite list_lookup_middle by done. simpl. eauto.
    + unfold Event.sequence, Event.cell. simpl. rewrite get_app, Hg. simpl.
      rewrite decide_True by done.
      by rewrite list_lookup_alter_eq, list_lookup_middle.
    + intros o' Hne'. unfold Event.sequence, Event.cell. simpl.
      rewrite get_app. simpl. rewrite decide_False by done.
      destruct (Py.get o' (Event.listeners ev)) as [a'|] eqn:Hg'; [|done].
      apply ok_get in Hg'; [|done]. apply Hfresh in Hg'.
      rewrite list_lookup_alter_ne by lia. by rewrite lookup_app_l.
    + simpl. rewrite bool_decide_eq_false_2 by done. by rewrite fmap_app.
Qed.

Lemma ok_del ev o :
  Event.ok ev → Event.ok (Event.mk (Py.del o (Event.listeners ev)) (Event.heap ev)).
Proof.
  intros Hok. split; simpl.
  - eapply sublist_NoDup; [apply (Event.ok_keys _ Hok) | apply fmap_sublist, del_sublist].
  - eapply sublist_NoDup; [apply (Event.ok_refs _ Hok) | apply fmap_sublist, del_sublist].
  - intros o' a' Hin. apply del_elem in Hin as [Hin _]; [|apply Hok].
    by apply (Event.ok_cells _ Hok o').
Qed.

Lemma ok_unregister_object ev o : Event.ok ev → Event.ok (Event.unregister_object o ev).
Proof.
  intros Hok. unfold Event.unregister_object.
  destruct (Py.contains o (Event.listeners ev)); [by apply ok_del | done].
Qed.

(** [unregister_method] with a bound method. *)
Lemma unregister_bound ev o f :
  Event.ok ev →
  let ev' := Event.unregister_method (BoundMethod o f) ev in
  let kept := filter (λ c, c.1 ≠ f) (Event.sequence ev o) in
  Event.ok ev'
  ∧ Event.sequence ev' o = kept
  ∧ (∀ o', o' ≠ o → Event.sequence ev' o' = Event.sequence ev o')
  ∧ Event.keys ev' =
      (if decide (kept = []) then filter (λ o', o' ≠ o) (Event.keys ev) else Event.keys ev)
  ∧ (kept = Event.sequence ev o → ev' = ev).
Proof.
  intros Hok. cbv zeta. unfold Event.keys.
  destruct (Py.get o (Event.listeners ev)) as [a|] eqn:Hg.
  - assert (Hs : Event.sequence ev o = Event.cell ev a)
      by (unfold Event.sequence; by rewrite Hg).
    rewrite Hs. unfold Event.unregister_method. rewrite Hg.
    apply ok_get in Hg as Ha; [|done].
    destruct (ok_cell ev o a Hok Ha) as [Hcell Hne].
    assert (Hlt : a < length (Event.heap ev)) by by apply lookup_lt_Some in Hcell.
    assert (Hother : ∀ o' a', o' ≠ o → (o', a') ∈ Event.listeners ev → a' ≠ a).
    { intros o' a' Hne' Hin' ->. apply Hne'. by eapply ok_ref_inj. }
    rewrite purge_filter.
    destruct (filter (λ c, c.1 ≠ f) (Event.cell ev a)) as [|c l'] eqn:Hf; simpl.
    + split; [|split; [|split; [|split]]].
      * split; simpl.
        -- eapply sublist_NoDup; [apply (Event.ok_keys _ Hok) | apply fmap_sublist, del_sublist].
        -- eapply sublist_NoDup; [apply (Event.ok_refs _ Hok) | apply fmap_sublist, del_sublist].
        -- intros o' a' Hin'. apply del_elem in Hin' as [Hin' Hne']; [|apply Hok].
           rewrite list_lookup_insert_ne by (apply not_eq_sym; eauto).
           by apply (Event.ok_cells _ Hok o').
      * unfold Event.sequence. simpl. by rewrite get_del_eq by apply Hok.
      * intros o' Hne'. unfold Event.sequence, Event.cell. simpl.
        rewrite get_del_ne by done.
        destruct (Py.get o' (Event.listeners ev)) as [a'|] eqn:Hg'; [|done].
        apply ok_get in Hg'; [|done].
        by rewrite list_lookup_insert_ne by (apply not_eq_sym; eauto).
      * apply del_keys, Hok.
      * intros Heq. by destruct Hne.
    + split; [|split; [|split; [|split]]].
      * split; simpl; [apply Hok | apply Hok |].
        intros o' a' Hin'. rewrite list_lookup_insert. case_decide as Hd.
        -- destruct Hd as [-> _]. eauto.
        -- by apply (Event.ok_cells _ Hok o').
      * unfold Event.sequence, Event.cell. simpl. rewrite Hg.
        by rewrite list_lookup_insert_eq.
      * intros o' Hne'. unfold Event.sequence, Event.cell. simpl.
        destruct (Py.get o' (Event.listeners ev)) as [a'|] eqn:Hg'; [|done].
        apply ok_get in Hg'; [|done].
        by rewrite list_lookup_insert_ne by (apply not_eq_sym; eauto).
      * done.
      * intros Heq. rewrite Heq, list_insert_id by done. by destruct ev.
  - assert (Hs : Event.sequence ev o = [])
      by (unfold Event.sequence; by rewrite Hg).
    rewrite Hs. unfold Event.unregister_method. rewrite Hg.
    apply get_None in Hg. split; [done|]. split; [done|]. split; [done|].
    split; [|done]. rewrite decide_True by done.
    symmetry. apply filter_all, Forall_forall. by intros x Hx ->.
Qed.

End EventFacts.

(** * Properties of the dispatcher *)

Import EventDispatcher.

Section Reach.
Context {U : Type}.
Variable resolve : owner → bool.
Variable body : func → owner → event_id → Any → Any → World U → list (action U).
Implicit Types (r : Run U) (w : World U) (e : event_id) (d ld : Any) (o : owner) (f : func).

Local Abbreviation lsteps := (rtc (lstep body)).
Local Abbreviation steps := (rtc (step body)).

Lemma run_of_bind (out : outcome U) (k : Run U → outcome U) :
  run_of (bind out k) = match out with Done r => run_of (k r) | _ => run_of out end.
Proof. by destruct out. Qed.

Lemma run_actions_lsteps acts r f o e d ld w :
  (∀ a, a ∈ acts → a ∈ body f o e d ld w) →
  lsteps r (run_actions acts r).1.
Proof.
  revert r. induction acts as [|a acts IH]; intros r Hin; simpl; [done|].
  assert (Hstep : lstep body r (perform a r).1).
  { eapply lstep_perform, Hin. left. }
  destruct (perform a r) as [r' [x|]]; simpl in *.
  - by apply rtc_once.
  - eapply rtc_l; [done|]. apply IH. intros a' Ha'. apply Hin. by right.
Qed.

Lemma call_lsteps f o e d ld r : lsteps r (call body f o e d ld r).1.
Proof.
  unfold call. eapply rtc_l; [apply (lstep_call body f o e d ld)|].
  by eapply run_actions_lsteps.
Qed.

Lemma for_callbacks_lsteps fuel o e d a j r :
  lsteps r (run_of (for_callbacks body fuel o e d a j r)).
Proof.
  revert j r. induction fuel as [|n IH]; intros j r; simpl; [done|].
  destruct (Event.cell (events (world r) e) a !! j) as [[f ld]|]; [|done].
  pose proof (call_lsteps f o e d ld r) as Hcall.
  destruct (call body f o e d ld r) as [r' [x|]]; simpl in *.
  - destruct (is_Exception x); simpl; [|done].
    etrans; [done|]. eapply rtc_l; [apply (lstep_traceback body x)|]. apply IH.
  - etrans; [done|]. apply IH.
Qed.

Lemma for_owners_lsteps fuel e d size i r :
  lsteps r (run_of (for_owners resolve body fuel e d size i r)).
Proof.
  revert i r. induction fuel as [|n IH]; intros i r; simpl; [done|].
  unfold Event.internal_get_listeners.
  destruct (negb _); [done|].
  destruct (Event.listeners (events (world r) e) !! i) as [[o a]|]; [|done].
  destruct (resolve o); [|apply IH].
  rewrite run_of_bind.
  pose proof (for_callbacks_lsteps n o e d a 0 r) as Hcb.
  destruct (for_callbacks body n o e d a 0 r) as [r'| |]; simpl in *; [|done|done].
  etrans; [done|]. apply IH.
Qed.

Lemma lsteps_steps r r' : lsteps r r' → steps r r'.
Proof.
  induction 1 as [|r r1 r2 H1 _ IH]; [done|].
  eapply rtc_l; [by apply step_listener | done].
Qed.

Lemma steps_bind r out (k : Run U → outcome U) :
  steps r (run_of out) →
  (∀ r', out = Done r' → steps r' (run_of (k r'))) →
  steps r (run_of (bind out k)).
Proof.
  intros H1 H2. rewrite run_of_bind. destruct out as [r'| |]; [|done|done].
  etrans; [exact H1|]. by apply H2.
Qed.

(** A dispatch whose start is a step goes on by steps of listeners. *)
Lemma dispatch_steps fuel s e d r r0 :
  step body r0 (log (ODispatch s e d (exit (world r))) r) →
  steps r0 (run_of (dispatch_event resolve body fuel s e d r)).
Proof.
  intros Hstep. unfold dispatch_event. eapply rtc_l; [exact Hstep|].
  apply lsteps_steps, for_owners_lsteps.
Qed.

Lemma check_empty_steps fuel r : steps r (run_of (check_empty resolve body fuel r)).
Proof.
  unfold check_empty.
  destruct (bool_decide (queue (world r) = [])) eqn:Hq; simpl; [|done].
  destruct (exit (world r)) eqn:Hx; simpl; [done|].
  apply bool_decide_eq_true in Hq.
  apply steps_bind.
  - apply dispatch_steps. rewrite Hx. apply step_notify; auto.
  - intros r' _. case_bool_decide as Hq'; simpl; [|done].
    apply rtc_once. by apply step_loop_exit.
Qed.

Lemma drain_steps fuel r : steps r (run_of (drain resolve body fuel r)).
Proof.
  revert r. induction fuel as [|n IH]; intros r; simpl; [done|].
  destruct (queue (world r)) as [|[e d] q] eqn:Hq; [done|].
  apply steps_bind.
  - apply dispatch_steps. simpl. by apply step_pop.
  - intros r1 _. apply steps_bind; [apply check_empty_steps|].
    intros r2 _. apply IH.
Qed.

(** Every state a run of [loop] goes through or ends in is reached by
    steps. *)
Lemma loop_steps fuel r : steps r (run_of (loop resolve body fuel r)).
Proof.
  unfold loop. apply steps_bind; [apply dispatch_steps, step_start|].
  intros r1 _. apply steps_bind.
  - destruct (exit (world r1)) eqn:Hx; simpl; [done|].
    case_bool_decide as Hq; [|done].
    apply dispatch_steps. rewrite Hx. apply step_notify; auto.
  - intros r2 _. apply steps_bind; [apply drain_steps|].
    intros r3 _. apply dispatch_steps, step_end.
Qed.

End Reach.

Section Invariants.
Context {U : Type}.
Variable resolve : owner → bool.
Variable body : func → owner → event_id → Any → Any → World U → list (action U).
Implicit Types (r : Run U) (w : World U) (e : event_id) (d ld : Any) (o : owner) (f : func).

Local Abbreviation lsteps := (rtc (lstep body)).
Local Abbreviation steps := (rtc (step body)).

(** What one call of the interface does to the trace, the queue and
    [exit]. *)
Lemma perform_trace (a : action U) r :
  trace (perform a r).1 =
  trace r ++ match a with Trigger e d => [OQueued e d] | SetExit b => [OExit b] | _ => [] end.
Proof.
  destruct a; simpl; try by rewrite app_nil_r.
  - done.
  - destruct (Event.register_listener _ _ _); simpl; by rewrite app_nil_r.
  - done.
Qed.

Lemma perform_queue (a : action U) r :
  queue (world (perform a r).1) =
  queue (world r) ++ match a with Trigger e d => [(e, d)] | _ => [] end.
Proof.
  destruct a; simpl; try by rewrite app_nil_r.
  - done.
  - destruct (Event.register_listener _ _ _); simpl; by rewrite app_nil_r.
Qed.

Lemma perform_exit (a : action U) r :
  exit (world (perform a r).1) = match a with SetExit b => b | _ => exit (world r) end.
Proof.
  destruct a; simpl; try done.
  by destruct (Event.register_listener _ _ _).
Qed.

(** Listeners add calls, reports, triggers and assignments of [exit] to
    the trace, never a dispatch; the queue grows at its tail by the
    events they trigger. *)
Lemma lstep_ext r r' :
  lstep body r r' →
  ∃ ext, trace r' = trace r ++ ext
    ∧ Forall (λ ob, by_listener ob = true) ext
    ∧ queue (world r') = queue (world r) ++ queued ext.
Proof.
  destruct 1 as [f o e d ld r|f o e d ld w a r _|x r].
  - exists [OCall f o e d ld]. simpl. split; [done|]. split; [by repeat constructor|].
    by rewrite app_nil_r.
  - eexists. split; [apply perform_trace|]. rewrite perform_queue.
    destruct a; simpl; (split; [by repeat constructor|done]).
  - exists [OTraceback x]. simpl. split; [done|]. split; [by repeat constructor|].
    by rewrite app_nil_r.
Qed.

Lemma lsteps_ext r r' :
  lsteps r r' →
  ∃ ext, trace r' = trace r ++ ext
    ∧ Forall (λ ob, by_listener ob = true) ext
    ∧ queue (world r') = queue (world r) ++ queued ext.
Proof.
  induction 1 as [r|r r1 r2 H1 _ (ext2 & Ht2 & Hd2 & Hq2)].
  - exists []. by rewrite !app_nil_r.
  - destruct (lstep_ext _ _ H1) as (ext1 & Ht1 & Hd1 & Hq1).
    exists (ext1 ++ ext2). rewrite Ht2, Ht1, Hq2, Hq1.
    unfold queued. rewrite omap_app, !app_assoc. split; [done|]. split; [|done].
    by apply Forall_app.
Qed.

Lemma lsteps_exit r r' :
  exit_untouched body → lsteps r r' → exit (world r') = exit (world r).
Proof.
  intros Hun. induction 1 as [r|r r1 r2 H1 _ IH]; [done|].
  rewrite IH. destruct H1 as [f o e d ld r|f o e d ld w a r Ha|x r]; [done| |done].
  rewrite perform_exit. destruct a; try done. by apply Hun in Ha.
Qed.

Lemma by_listener_dispatches ext :
  Forall (λ ob, by_listener ob = true) ext → dispatches ext = [].
Proof.
  induction 1 as [|ob ext Hob _ IH]; [done|].
  unfold dispatches in *. simpl. by destruct ob.
Qed.

Lemma by_listener_popped ext :
  Forall (λ ob, by_listener ob = true) ext → popped ext = [].
Proof.
  induction 1 as [|ob ext Hob _ IH]; [done|].
  unfold popped in *. simpl. by destruct ob.
Qed.

(** The queue is first in, first out at every step. *)
Lemma fifo_step q0 r r' : step body r r' → fifo q0 r → fifo q0 r'.
Proof.
  unfold fifo. intros Hstep Hinv.
  destruct Hstep as [r r' Hl|e d q r Hq|r|r|s r Hs Hx Hq|r Hq]; simpl.
  - destruct (lstep_ext _ _ Hl) as (ext & -> & Hd & ->).
    unfold popped, queued in *. rewrite !omap_app.
    fold (popped ext). rewrite (by_listener_popped ext Hd), app_nil_r.
    by rewrite app_assoc, Hinv, app_assoc.
  - rewrite Hq in Hinv. unfold popped, queued in *. rewrite !omap_app. simpl.
    by rewrite app_nil_r, <- app_assoc.
  - unfold popped, queued in *. rewrite !omap_app. simpl. by rewrite !app_nil_r.
  - unfold popped, queued in *. rewrite !omap_app. simpl. by rewrite !app_nil_r.
  - unfold popped, queued in *. rewrite !omap_app. simpl.
    destruct Hs as [-> | ->]; simpl; by rewrite !app_nil_r.
  - unfold popped, queued in *. rewrite !omap_app. simpl. by rewrite !app_nil_r.
Qed.

Lemma fifo_steps q0 r r' : steps r r' → fifo q0 r → fifo q0 r'.
Proof. induction 1; eauto using fifo_step. Qed.

Lemma settled_same tr x x' : settled tr x → (x = true → x' = true) → settled tr x'.
Proof. intros [Hq Hs] Hx. split; [done|]. auto. Qed.

Lemma settled_snoc tr x ob x' :
  settled tr x →
  (is_notification ob = true → x = false ∧ exit_seen ob = false) →
  (x = true → x' = true) →
  (exit_seen ob = true → x' = true) →
  settled (tr ++ [ob]) x'.
Proof.
  intros [Hq Hs] Hn Hx Hob. split.
  - intros i j o1 o2 Hi Hj Hij Hseen.
    destruct (decide (j < length tr)) as [Hlt|Hge].
    + rewrite lookup_app_l in Hi, Hj by lia. by apply (Hq i j o1 o2).
    + assert (j = length tr) as ->.
      { apply lookup_lt_Some in Hj. rewrite length_app in Hj. simpl in Hj. lia. }
      rewrite list_lookup_middle in Hj by done. injection Hj as <-.
      destruct (is_notification ob) eqn:Hnot; [|done].
      destruct Hn as [Hxf Hobf]; [done|].
      destruct (decide (i < length tr)) as [Hlt|Hge'].
      * rewrite lookup_app_l in Hi by lia.
        rewrite Hs in Hxf; [done|]. apply Exists_exists. exists o1. split; [|done].
        apply list_elem_of_lookup. eauto.
      * assert (i = length tr) as -> by lia.
        rewrite list_lookup_middle in Hi by done. injection Hi as <-. congruence.
  - intros Hex. apply Exists_app in Hex as [Hex|Hex]; [auto|].
    apply Exists_cons in Hex as [Hex|Hex]; [auto|]. by apply Exists_nil in Hex.
Qed.

Lemma settled_step r r' :
  exit_never_cleared body →
  step body r r' →
  settled (trace r) (exit (world r)) → settled (trace r') (exit (world r')).
Proof.
  intros Hnc Hstep Hinv.
  destruct Hstep as [r r' Hl|e d q r Hq|r|r|s r Hs Hx Hq|r Hq]; simpl.
  - destruct Hl as [f o e d ld r|f o e d ld w a r Ha|x r]; simpl.
    + by apply (settled_snoc _ (exit (world r))).
    + rewrite perform_trace, perform_exit.
      destruct a as [e' d'|e' m ld'|e' m|e' o'|b|u|x]; rewrite ?app_nil_r; try done.
      * by apply (settled_snoc _ (exit (world r))).
      * destruct b; [|by apply Hnc in Ha].
        by apply (settled_snoc _ (exit (world r))).
    + by apply (settled_snoc _ (exit (world r))).
  - apply (settled_snoc _ (exit (world r))); [done|done|done|]. simpl. by destruct (exit (world r)).
  - apply (settled_snoc _ (exit (world r))); [done|done|done|]. simpl. by destruct (exit (world r)).
  - apply (settled_snoc _ (exit (world r))); [done|done|done|]. simpl. by destruct (exit (world r)).
  - apply (settled_snoc _ (exit (world r))); [done| |done|]; by destruct Hs as [-> | ->].
  - by apply (settled_snoc _ (exit (world r))).
Qed.

Lemma settled_steps r r' :
  exit_never_cleared body →
  rtc (step body) r r' →
  settled (trace r) (exit (world r)) → settled (trace r') (exit (world r')).
Proof. intros Hnc. induction 1; eauto using settled_step. Qed.

(** Every dispatch of [event_queue_empty] by [loop] starts with [exit]
    false, whatever the listeners do. *)
Lemma guarded_step r r' :
  step body r r' → forallb guarded (trace r) = true → forallb guarded (trace r') = true.
Proof.
  intros Hstep Hinv.
  destruct Hstep as [r r' Hl|e d q r Hq|r|r|s r Hs Hx Hq|r Hq]; simpl;
    rewrite ?forallb_app, ?Hinv; simpl; try done.
  - destruct (lstep_ext _ _ Hl) as (ext & -> & Hd & _).
    rewrite forallb_app, Hinv. simpl. clear -Hd.
    induction Hd as [|ob ext Hob _ IH]; [done|]. simpl. rewrite IH. by destruct ob.
  - by destruct Hs as [-> | ->].
Qed.

Lemma guarded_steps r r' :
  rtc (step body) r r' → forallb guarded (trace r) = true → forallb guarded (trace r') = true.
Proof. induction 1; eauto using guarded_step. Qed.

End Invariants.

Section Static.
Context {U : Type}.
Variable resolve : owner → bool.
Variable body : func → owner → event_id → Any → Any → World U → list (action U).
Implicit Types (r : Run U) (w : World U) (e : event_id) (d ld : Any) (o : owner) (f : func).

Lemma perform_static e (a : action U) r :
  touches e a = false → events (world (perform a r).1) e = events (world r) e.
Proof.
  destruct a as [e' d'|e' m ld'|e' m|e' o'|b|u|x]; simpl; try done.
  - intros Ht%bool_decide_eq_false.
    destruct (Event.register_listener _ _ _); simpl; [|done].
    by rewrite fn_lookup_insert_ne.
  - intros Ht%bool_decide_eq_false. by rewrite fn_lookup_insert_ne.
  - intros Ht%bool_decide_eq_false. by rewrite fn_lookup_insert_ne.
Qed.

Lemma perform_calls (a : action U) r :
  filter is_call (trace (perform a r).1) = filter is_call (trace r).
Proof.
  rewrite perform_trace, filter_app.
  destruct a; simpl; by rewrite app_nil_r.
Qed.

Lemma register_err m ld ev x :
  Event.register_listener m ld ev = Err x → is_Exception x = true.
Proof.
  unfold Event.register_listener. destruct m as [o f|g]; [|by intros [= <-]].
  destruct (Py.get _ _); [done | by intros [= <-]].
Qed.

Lemma perform_raise (a : action U) r x :
  (perform a r).2 = Some x → a = Throw x ∨ is_Exception x = true.
Proof.
  destruct a as [e' d'|e' m ld'|e' m|e' o'|b|u|y]; simpl; try done.
  - destruct (Event.register_listener _ _ _) as [ev|y] eqn:Hreg; simpl; [done|].
    intros [= <-]. right. by eapply register_err.
  - intros [= <-]. by left.
Qed.

Lemma run_actions_static e (acts : list (action U)) r :
  (∀ a, a ∈ acts → touches e a = false) →
  events (world (run_actions acts r).1) e = events (world r) e
  ∧ filter is_call (trace (run_actions acts r).1) = filter is_call (trace r)
  ∧ (∀ x, (run_actions acts r).2 = Some x → Throw x ∈ acts ∨ is_Exception x = true).
Proof.
  revert r. induction acts as [|a acts IH]; intros r Hst; simpl; [done|].
  pose proof (perform_static e a r (Hst a ltac:(left))) as Hev.
  pose proof (perform_calls a r) as Hcalls.
  pose proof (perform_raise a r) as Hraise.
  destruct (perform a r) as [r' [y|]]; simpl in *.
  - split; [done|]. split; [done|]. intros x [= <-].
    destruct (Hraise y eq_refl) as [->|Hy]; [left; left | by right].
  - destruct (IH r') as (IH1 & IH2 & IH3); [intros a' Ha'; apply Hst; by right|].
    rewrite IH1, IH2. split; [done|]. split; [done|].
    intros x Hx. destruct (IH3 x Hx) as [Hin|Hex]; [left; by right | by right].
Qed.

Lemma call_static f o e d ld r :
  (∀ a, a ∈ body f o e d ld (world r) → touches e a = false) →
  events (world (call body f o e d ld r).1) e = events (world r) e
  ∧ filter is_call (trace (call body f o e d ld r).1)
    = filter is_call (trace r) ++ [OCall f o e d ld]
  ∧ (∀ x, (call body f o e d ld r).2 = Some x →
       Throw x ∈ body f o e d ld (world r) ∨ is_Exception x = true).
Proof.
  intros Hst. unfold call.
  destruct (run_actions_static e (body f o e d ld (world r)) (log (OCall f o e d ld) r) Hst)
    as (H1 & H2 & H3).
  rewrite H1, H2. simpl. by rewrite filter_app.
Qed.

Lemma runs_through_bind out r e all1 all2 (k : Run U → outcome U) :
  runs_through body out r e all1 →
  (∀ r1, out = Done r1 → events (world r1) e = events (world r) e →
     runs_through body (k r1) r1 e all2) →
  runs_through body (bind out k) r e (all1 ++ all2).
Proof.
  intros (r1 & Hev & [[-> Hcalls]|(x & pre & -> & Hx & Hth & Hpre & Hcalls)]) Hk.
  - destruct (Hk r1 eq_refl Hev) as (r2 & Hev2 & [[Hout Hc2]|(x & pre & Hout & Hx & Hth & Hpre & Hc2)]).
    + exists r2. split; [congruence|]. left. split; [done|].
      by rewrite Hc2, Hcalls, app_assoc.
    + exists r2. split; [congruence|]. right. exists x, (all1 ++ pre).
      split; [done|]. split; [done|]. split; [|split].
      * destruct Hth as (f & o & e' & d & ld & w & Hin & Hb).
        exists f, o, e', d, ld, w. split; [|done]. apply elem_of_app. by right.
      * by apply prefix_app.
      * by rewrite Hc2, Hcalls, app_assoc.
  - exists r1. split; [done|]. right. exists x, pre.
    split; [done|]. split; [done|]. split; [|split; [|done]].
    + destruct Hth as (f & o & e' & d & ld & w & Hin & Hb).
      exists f, o, e', d, ld, w. split; [|done]. apply elem_of_app. by left.
    + by apply prefix_app_r.
Qed.

(** The inner loop over a list that no listener changes. *)
Lemma for_callbacks_static fuel o e d a j r :
  let l := Event.cell (events (world r) e) a in
  (∀ f ld w act, (f, ld) ∈ drop j l → act ∈ body f o e d ld w → touches e act = false) →
  length l - j < fuel →
  runs_through body (for_callbacks body fuel o e d a j r) r e
    ((λ c, OCall c.1 o e d c.2) <$> drop j l).
Proof.
  revert j r. induction fuel as [|n IH]; intros j r l Hst Hfuel; [lia|]. simpl.
  fold l. destruct (l !! j) as [[f ld]|] eqn:Hj.
  - rewrite (drop_S _ _ _ Hj) in Hst |- *. rewrite fmap_cons. simpl.
    destruct (call_static f o e d ld r) as (Hev & Hcalls & Hraise).
    { intros act. apply Hst. left. }
    apply lookup_lt_Some in Hj as Hlt.
    assert (Hst' : ∀ f' ld' w act, (f', ld') ∈ drop (S j) l →
              act ∈ body f' o e d ld' w → touches e act = false).
    { intros f' ld' w act Hin. apply Hst. by right. }
    destruct (call body f o e d ld r) as [r1 [x|]]; simpl in *.
    + destruct (is_Exception x) eqn:Hx.
      * destruct (IH (S j) (log (OTraceback x) r1)) as (r2 & Hev2 & Hres).
        { simpl. by rewrite Hev. }
        { simpl. rewrite Hev. fold l. lia. }
        simpl in Hev2, Hres. rewrite Hev in Hev2, Hres. fold l in Hres.
        exists r2. split; [done|].
        assert (Hc1 : filter is_call (trace r1 ++ [OTraceback x])
                      = filter is_call (trace r) ++ [OCall f o e d ld]).
        { by rewrite filter_app, Hcalls, app_nil_r. }
        rewrite Hc1 in Hres.
        destruct Hres as [[Hout Hc2]|(y & pre & Hout & Hy & Hth & Hpre & Hc2)].
        -- left. split; [done|]. by rewrite Hc2, <- app_assoc.
        -- right. exists y, (OCall f o e d ld :: pre).
           split; [done|]. split; [done|]. split; [|split].
           ++ destruct Hth as (f' & o' & e' & d' & ld' & w & Hin & Hb).
              exists f', o', e', d', ld', w. split; [by right | done].
           ++ by apply prefix_cons.
           ++ by rewrite Hc2, <- app_assoc.
      * exists r1. split; [done|]. right. exists x, [OCall f o e d ld].
        split; [done|]. split; [done|]. split; [|split; [|done]].
        -- destruct (Hraise x eq_refl) as [Hin|Hex]; [|congruence].
           exists f, o, e, d, ld, (world r). split; [left | done].
        -- apply (prefix_cons _ []), prefix_nil.
    + destruct (IH (S j) r1) as (r2 & Hev2 & Hres).
      { simpl. by rewrite Hev. }
      { simpl. rewrite Hev. fold l. lia. }
      simpl in Hev2, Hres. rewrite Hev in Hev2, Hres. fold l in Hres.
      exists r2. split; [done|]. rewrite Hcalls in Hres.
      destruct Hres as [[Hout Hc2]|(y & pre & Hout & Hy & Hth & Hpre & Hc2)].
      * left. split; [done|]. by rewrite Hc2, <- app_assoc.
      * right. exists y, (OCall f o e d ld :: pre).
        split; [done|]. split; [done|]. split; [|split].
        -- destruct Hth as (f' & o' & e' & d' & ld' & w & Hin & Hb).
           exists f', o', e', d', ld', w. split; [by right | done].
        -- by apply prefix_cons.
        -- by rewrite Hc2, <- app_assoc.
  - apply lookup_ge_None in Hj. rewrite drop_ge by done.
    exists r. split; [done|]. left. by rewrite app_nil_r.
Qed.

Lemma cell_le_sum ev (oa : owner * nat) (tbl : list (owner * nat)) :
  oa ∈ tbl →
  length (Event.cell ev oa.2) ≤ sum_list ((λ oa, length (Event.cell ev oa.2)) <$> tbl).
Proof.
  induction 1 as [oa tbl|oa oa' tbl _ IH]; rewrite fmap_cons; simpl in *; lia.
Qed.

(** The outer loop over a dict that no listener changes. *)
Lemma for_owners_static fuel e d i r :
  let ev := events (world r) e in
  let tbl := Event.listeners ev in
  (∀ f o ld w act,
     OCall f o e d ld ∈ (drop i tbl ≫= entry_calls resolve e d ev) →
     act ∈ body f o e d ld w → touches e act = false) →
  length tbl - i + sum_list ((λ oa, length (Event.cell ev oa.2)) <$> tbl) < fuel →
  runs_through body (for_owners resolve body fuel e d (length tbl) i r) r e
    (drop i tbl ≫= entry_calls resolve e d ev).
Proof.
  revert i r. induction fuel as [|n IH]; intros i r ev tbl Hst Hfuel; [lia|]. simpl.
  unfold Event.internal_get_listeners. fold ev. fold tbl. rewrite Nat.eqb_refl. simpl.
  destruct (tbl !! i) as [[o a]|] eqn:Hi.
  - rewrite (drop_S _ _ _ Hi) in Hst |- *. rewrite bind_cons in Hst |- *.
    apply lookup_lt_Some in Hi as Hlt.
    assert (Hle : length (Event.cell ev a)
                  ≤ sum_list ((λ oa, length (Event.cell ev oa.2)) <$> tbl)).
    { apply (cell_le_sum ev (o, a)). apply list_elem_of_lookup. eauto. }
    assert (Hrest : ∀ r1, events (world r1) e = events (world r) e →
              runs_through body (for_owners resolve body n e d (length tbl) (S i) r1) r1 e
                (drop (S i) tbl ≫= entry_calls resolve e d ev)).
    { intros r1 Hev. specialize (IH (S i) r1). simpl in IH. rewrite Hev in IH.
      apply IH.
      - intros f o' ld w act Hin. apply Hst. apply elem_of_app. by right.
      - fold ev. fold tbl. lia. }
    assert (Hec : entry_calls resolve e d ev (o, a)
                  = if resolve o then (λ c, OCall c.1 o e d c.2) <$> Event.cell ev a else [])
      by done.
    rewrite Hec in Hst |- *. clear Hec.
    destruct (resolve o) eqn:Hres.
    + apply runs_through_bind; [|by intros r1 _ Hev; apply Hrest].
      pose proof (for_callbacks_static n o e d a 0 r) as Hcb. simpl in Hcb.
      fold ev in Hcb. apply Hcb; [|lia].
      intros f ld w act Hin. apply Hst. apply elem_of_app. left.
      apply list_elem_of_fmap. by exists (f, ld).
    + simpl. by apply Hrest.
  - apply lookup_ge_None in Hi. rewrite drop_ge by done.
    exists r. split; [done|]. left. by rewrite app_nil_r.
Qed.

(** A dispatch out of a table that no listener it calls changes: it
    calls what the table held at the start, in order. *)
Lemma dispatch_static fuel s e d r :
  static resolve body e d (events (world r) e) →
  cost (events (world r) e) < fuel →
  runs_through body (dispatch_event resolve body fuel s e d r) r e
    (snapshot resolve e d (events (world r) e)).
Proof.
  intros Hst Hfuel. unfold dispatch_event.
  pose proof (for_owners_static fuel e d 0 (log (ODispatch s e d (exit (world r))) r)) as H.
  simpl in H. destruct H as (r' & Hev & Hres).
  - intros f o ld w act Hin. by eapply Hst.
  - unfold cost in Hfuel. lia.
  - exists r'. split; [done|].
    assert (Htr : filter is_call (trace (log (ODispatch s e d (exit (world r))) r))
                  = filter is_call (trace r)).
    { unfold log. simpl. rewrite filter_app. apply app_nil_r. }
    rewrite Htr in Hres. exact Hres.
Qed.

End Static.

Section Shape.
Context {U : Type}.
Variable resolve : owner → bool.
Variable body : func → owner → event_id → Any → Any → World U → list (action U).
Implicit Types (r : Run U) (w : World U) (e : event_id) (d ld : Any) (o : owner) (f : func).

(** A dispatch logs its start; the rest is the work of listeners. *)
Lemma dispatch_ext fuel s e d r :
  let r' := run_of (dispatch_event resolve body fuel s e d r) in
  ∃ ext, trace r' = trace r ++ ODispatch s e d (exit (world r)) :: ext
    ∧ Forall (λ ob, by_listener ob = true) ext
    ∧ queue (world r') = queue (world r) ++ queued ext.
Proof.
  unfold dispatch_event, Event.internal_get_listeners. simpl.
  destruct (lsteps_ext body _ _
    (for_owners_lsteps resolve body fuel e d
       (length (Event.listeners (events (world r) e))) 0
       (log (ODispatch s e d (exit (world r))) r))) as (ext & Ht & Hl & Hq).
  exists ext. simpl in *. by rewrite Ht, <- app_assoc.
Qed.

Lemma dispatch_exit fuel s e d r :
  exit_untouched body →
  exit (world (run_of (dispatch_event resolve body fuel s e d r))) = exit (world r).
Proof.
  intros Hun. unfold dispatch_event.
  by rewrite (lsteps_exit body _ _ Hun (for_owners_lsteps resolve body fuel e d _ 0 _)).
Qed.

Lemma dispatches_dispatch tr s e d x ext :
  Forall (λ ob, by_listener ob = true) ext →
  dispatches (tr ++ ODispatch s e d x :: ext) = dispatches tr ++ [(s, e, d)].
Proof.
  intros Hext. pose proof (by_listener_dispatches ext Hext) as Hd.
  unfold dispatches in *.
  replace (tr ++ ODispatch s e d x :: ext) with ((tr ++ [ODispatch s e d x]) ++ ext)
    by (by rewrite <- app_assoc).
  by rewrite !omap_app, Hd, app_nil_r.
Qed.

Lemma drained_refl r r' : trace r' = trace r → drained r r'.
Proof. intros Ht. exists []. by rewrite Ht, app_nil_r. Qed.

Lemma drained_trans r1 r2 r3 : drained r1 r2 → drained r2 r3 → drained r1 r3.
Proof.
  intros (m1 & H1 & F1) (m2 & H2 & F2). exists (m1 ++ m2).
  rewrite H2, H1, app_assoc. split; [done|]. by apply Forall_app.
Qed.

Lemma drained_bind r out (k : Run U → outcome U) :
  drained r (run_of out) →
  (∀ r1, out = Done r1 → drained r1 (run_of (k r1))) →
  drained r (run_of (bind out k)).
Proof.
  intros H1 H2. rewrite run_of_bind. destruct out as [r1| |]; [|done|done].
  eapply drained_trans; [exact H1|]. by apply H2.
Qed.

Lemma dispatch_drained fuel s e d r :
  drain_site s = true → drained r (run_of (dispatch_event resolve body fuel s e d r)).
Proof.
  intros Hs. destruct (dispatch_ext fuel s e d r) as (ext & Ht & Hl & _).
  exists [(s, e, d)]. rewrite Ht. split; [by apply dispatches_dispatch|].
  by repeat constructor.
Qed.

Lemma check_empty_drained fuel r : drained r (run_of (check_empty resolve body fuel r)).
Proof.
  unfold check_empty.
  destruct (bool_decide _ && negb _); [|by apply drained_refl].
  apply drained_bind; [by apply dispatch_drained|].
  intros r1 _. case_bool_decide; simpl; [|by apply drained_refl].
  exists []. simpl. unfold dispatches. rewrite omap_app. simpl. by rewrite !app_nil_r.
Qed.

(** The drain loop makes dispatches from the queue and dispatches of
    [event_queue_empty], nothing else. *)
Lemma drain_drained fuel r : drained r (run_of (drain resolve body fuel r)).
Proof.
  revert r. induction fuel as [|n IH]; intros r; simpl; [by apply drained_refl|].
  destruct (queue (world r)) as [|[e d] q]; [by apply drained_refl|].
  apply drained_bind.
  - eapply drained_trans; [|by apply dispatch_drained]. by apply drained_refl.
  - intros r1 _. apply drained_bind; [apply check_empty_drained|].
    intros r2 _. apply IH.
Qed.

(** A drain loop that returns leaves the queue empty. *)
Lemma drain_done fuel r r' :
  drain resolve body fuel r = Done r' → queue (world r') = [].
Proof.
  revert r. induction fuel as [|n IH]; intros r; simpl; [done|].
  destruct (queue (world r)) as [|[e d] q] eqn:Hq; [by intros [= <-]|].
  destruct (dispatch_event _ _ _ _ _ _ _) as [r1| |]; simpl; [|done|done].
  destruct (check_empty _ _ _ _) as [r2| |]; simpl; [|done|done].
  apply IH.
Qed.

End Shape.

Section Snapshot.
Variable resolve : owner → bool.
Implicit Types (e : event_id) (d ld : Any) (o : owner) (f : func) (ev : Event.t).

(** A snapshot of the table of [e] holds calls for [e] only. *)
Lemma snapshot_elem e d ev ob :
  ob ∈ snapshot resolve e d ev → ∃ f o ld, ob = OCall f o e d ld.
Proof.
  unfold snapshot. intros Hin. apply list_elem_of_bind in Hin as ([o a] & Hin & _).
  unfold entry_calls in Hin. simpl in Hin. destruct (resolve o); [|by apply elem_of_nil in Hin].
  apply list_elem_of_fmap in Hin as ([f ld] & -> & _). by exists f, o, ld.
Qed.

(** The calls for one owner stand together in the snapshot, in the
    order of its sequence. *)
Lemma snapshot_owner e d ev o :
  Event.ok ev → resolve o = true → o ∈ Event.keys ev →
  ∃ pre post,
    snapshot resolve e d ev
    = pre ++ ((λ c, OCall c.1 o e d c.2) <$> Event.sequence ev o) ++ post.
Proof.
  intros Hok Hres Hin. unfold Event.sequence.
  destruct (Py.get o (Event.listeners ev)) as [a|] eqn:Hg;
    [|by apply get_None in Hg].
  apply get_Some_elem in Hg. apply list_elem_of_split in Hg as (l1 & l2 & Hl).
  unfold snapshot. rewrite Hl, bind_app, bind_cons.
  exists (l1 ≫= entry_calls resolve e d ev), (l2 ≫= entry_calls resolve e d ev).
  unfold entry_calls at 2. simpl. by rewrite Hres.
Qed.

End Snapshot.

(** ** Claims about [Event] *)

Lemma sample_event_ok : Event.ok sample_event.
Proof.
  split; simpl.
  - apply NoDup_singleton.
  - apply NoDup_singleton.
  - intros o a Hin. apply list_elem_of_singleton in Hin. simplify_eq.
    by eexists.
Defined.







(** ** Claims about the dispatcher *)

Import Samples.



Lemma static_faulty :
  static all_alive faulty 5 (PyStr "x") (one_owner [60; 61]).
Proof.
  intros f o ld w a Hin Ha. vm_compute in Hin.
  apply list_elem_of_In in Hin. simpl in Hin.
  destruct Hin as [[= <- <- <-]|[[= <- <- <-]|[]]]; vm_compute in Ha;
    apply list_elem_of_In in Ha; simpl in Ha; destruct Ha as [<-|[]]; done.
Defined.



(** test_run_to_completion, with three events: A, B and C wait on the
    queue; the listener of A triggers A again, and A comes after B and
    C. *)
Example fifo_retrigger :
  let w := system [(5, one_owner [70]); (6, one_owner [70]); (7, one_owner [70])]
             [(5, PyBool true); (6, PyBool false); (7, PyBool false)] false in
  let out := loop all_alive again 20 (start w) in
  returned out = true
  ∧ popped (trace (run_of out))
    = [(5, PyBool true); (6, PyBool false); (7, PyBool false); (5, PyBool false)].
Proof. vm_compute. done. Qed.

(** test_event_queue_empty: the counter starts at 10 and is registered
    on [event_queue_empty]; it is called eleven times, the last time
    with nothing left to do, and [loop] ends with [exit] set. *)
Example countdown_keeps_loop_alive :
  let w := mkWorld (λ e, if decide (e = event_queue_empty) then one_owner [95] else Event.new)
             [] false 10 in
  let out := loop all_alive countdown 40 (start w) in
  returned out = true
  ∧ length (calls (trace (run_of out))) = 11
  ∧ length (popped (trace (run_of out))) = 10
  ∧ user (world (run_of out)) = 0
  ∧ exit (world (run_of out)) = true.
Proof. vm_compute. done. Qed.

(** C3 as stated fails.  Events 5 and 6 wait on the queue; the listener
    of 5 sets [exit], the listener of 6 clears it.  The dispatch of 6
    starts with [exit] true, and after it the check in the drain loop
    dispatches [event_queue_empty]. *)
Lemma notification_after_exit_was_true :
  let w := system [(5, one_owner [40]); (6, one_owner [41])]
             [(5, PyNone); (6, PyNone)] false in
  let out := loop all_alive toggle 10 (start w) in
  returned out = true
  ∧ trace (run_of out) !! 3 = Some (OExit true)
  ∧ trace (run_of out) !! 7 = Some (ODispatch InDrain event_queue_empty PyNone false)
  ∧ ¬ quiet_after_exit (trace (run_of out)).
Proof.
  intros w out.
  assert (H3 : trace (run_of out) !! 3 = Some (OExit true)) by (by vm_compute).
  assert (H7 : trace (run_of out) !! 7
               = Some (ODispatch InDrain event_queue_empty PyNone false))
    by (by vm_compute).
  split; [by vm_compute|]. split; [done|]. split; [done|].
  intros Hq. specialize (Hq 3 7 _ _ H3 H7). simpl in Hq.
  assert (true = false) as Habs by (apply Hq; [lia | done]). discriminate Habs.
Qed.

(** C3, amended.  In the drain loop, when the dispatch of
    [event_queue_empty] returns and leaves the queue empty, [loop] sets
    [exit].  Both checks are guarded: every dispatch of
    [event_queue_empty] that [loop] makes starts with [exit] false.  And
    as long as no listener sets [exit] back to [False], once [exit] has
    been true in a run of [loop] (found true at the start of a dispatch,
    set by a listener or set by [loop]), [loop] dispatches
    [event_queue_empty] no more. *)
Theorem queue_empty_guarded_by_exit {U} resolve body fuel :
  (∀ (r r1 : Run U),
     queue (world r) = [] → exit (world r) = false →
     dispatch_event resolve body fuel InDrain event_queue_empty PyNone r = Done r1 →
     queue (world r1) = [] →
     ∃ r2, check_empty resolve body fuel r = Done r2 ∧ exit (world r2) = true
       ∧ trace r2 = trace r1 ++ [OLoopExit])
  ∧ (∀ w : World U,
       forallb guarded (trace (run_of (loop resolve body fuel (start w)))) = true)
  ∧ (exit_never_cleared body →
     ∀ w : World U, quiet_after_exit (trace (run_of (loop resolve body fuel (start w))))).
Proof.
  split; [|split].
  - intros r r1 Hq Hx Hd Hq1. unfold check_empty.
    rewrite Hq, Hx, Hd. simpl. rewrite Hq1. simpl. by eexists.
  - intros w.
    by apply (guarded_steps body (start w) _ (loop_steps resolve body fuel (start w))).
  - intros Hnc w.
    apply (settled_steps body (start w) _ Hnc (loop_steps resolve body fuel (start w))).
    split.
    + intros i j o1 o2 Hi. simpl in Hi. by rewrite lookup_nil in Hi.
    + intros Hex. by apply Exists_nil in Hex.
Qed.

Lemma exit_never_cleared_faulty : exit_never_cleared faulty.
Proof.
  intros f o e d ld w Hin. unfold faulty in Hin.
  repeat case_decide; apply list_elem_of_In in Hin; simpl in Hin;
    intuition discriminate.
Defined.

Lemma queue_empty_guarded_by_exit_witness :
  let w := system [(5, one_owner [60; 61])] [(5, PyNone)] false in
  let r := start (system [] [] false) in
  let r1 := run_of (dispatch_event all_alive faulty 10 InDrain event_queue_empty PyNone r) in
  exit_never_cleared faulty
  ∧ quiet_after_exit (trace (run_of (loop all_alive faulty 10 (start w))))
  ∧ dispatches (trace (run_of (loop all_alive faulty 10 (start w))))
    = [(AtLoopStart, event_loop_start, PyNone); (Popped, 5, PyNone);
       (Popped, 7, PyNone); (InDrain, event_queue_empty, PyNone);
       (AtLoopEnd, event_loop_end, PyNone)]
  ∧ queue (world r) = [] ∧ exit (world r) = false ∧ queue (world r1) = []
  ∧ ∃ r2, check_empty all_alive faulty 10 r = Done r2 ∧ exit (world r2) = true.
Proof.
  intros w r r1. split; [exact exit_never_cleared_faulty|]. split; [|split].
  - exact (proj2 (proj2 (queue_empty_guarded_by_exit all_alive faulty 10))
             exit_never_cleared_faulty w).
  - vm_compute. reflexivity.
  - split; [reflexivity|]. split; [reflexivity|]. split; [reflexivity|].
    destruct (proj1 (queue_empty_guarded_by_exit all_alive faulty 10) r r1
                eq_refl eq_refl eq_refl eq_refl) as (r2 & Hc & Hx & _).
    exists r2. split; [exact Hc | exact Hx].
Defined.


Lemma catchable_faulty :
  catchable all_alive faulty 5 (PyStr "x") (one_owner [60; 61]).
Proof.
  intros f o ld w x Hin Ha. vm_compute in Hin.
  apply list_elem_of_In in Hin. simpl in Hin.
  destruct Hin as [[= <- <- <-]|[[= <- <- <-]|[]]]; vm_compute in Ha;
    apply list_elem_of_In in Ha; simpl in Ha; destruct Ha as [[= <-]|[]]; done.
Defined.



Lemma static_idle e d ev : static all_alive idle e d ev.
Proof.
  intros f o ld w a _ Ha. apply list_elem_of_In in Ha. destruct Ha.
Defined.

Lemma catchable_idle e d ev : catchable all_alive idle e d ev.
Proof.
  intros f o ld w a _ Ha. apply list_elem_of_In in Ha. destruct Ha.
Defined.


Section LoopShape.
Context {U : Type}.
Variable resolve : owner → bool.
Variable body : func → owner → event_id → Any → Any → World U → list (action U).

(** What a dispatch that returns adds to the trace. *)
Lemma dispatch_done_ext fuel s e d (r r' : Run U) :
  dispatch_event resolve body fuel s e d r = Done r' →
  ∃ ext, trace r' = trace r ++ ODispatch s e d (exit (world r)) :: ext
    ∧ Forall (λ ob, by_listener ob = true) ext.
Proof.
  intros Hout. destruct (dispatch_ext resolve body fuel s e d r) as (ext & Ht & Hl & _).
  rewrite Hout in Ht. eauto.
Qed.

Lemma dispatch_done_dispatches fuel s e d (r r' : Run U) :
  dispatch_event resolve body fuel s e d r = Done r' →
  dispatches (trace r') = dispatches (trace r) ++ [(s, e, d)].
Proof.
  intros (ext & -> & Hl)%dispatch_done_ext. by apply dispatches_dispatch.
Qed.

Lemma by_listener_not_loop_exit (ext : list obs) :
  Forall (λ ob, by_listener ob = true) ext → OLoopExit ∉ ext.
Proof.
  intros Hl Hin. rewrite Forall_forall in Hl. by apply Hl in Hin.
Qed.

(** [loop] without the drain loop: the queue is empty after the first
    dispatch and stays so. *)
Lemma loop_on_empty_queue fuel (r r1 r2 r3 : Run U) :
  dispatch_event resolve body fuel AtLoopStart event_loop_start PyNone r = Done r1 →
  queue (world r1) = [] →
  (if exit (world r1) then r2 = r1
   else dispatch_event resolve body fuel PreDrain event_queue_empty PyNone r1 = Done r2) →
  queue (world r2) = [] →
  dispatch_event resolve body fuel AtLoopEnd event_loop_end PyNone r2 = Done r3 →
  loop resolve body fuel r = Done r3.
Proof.
  intros H1 Hq1 H2 Hq2 H3. unfold loop. rewrite H1. simpl. rewrite Hq1. simpl.
  assert (Hdrain : drain resolve body fuel r2 = Done r2).
  { destruct fuel as [|n]; [done|]. simpl. by rewrite Hq2. }
  destruct (exit (world r1)); simpl.
  - subst r2. rewrite Hdrain. simpl. done.
  - rewrite H2. simpl. rewrite Hdrain. simpl. done.
Qed.

(** The dispatches of a run of [loop], finished or not: first
    [event_loop_start], then the drain loop, then [event_loop_end] at
    most once, and once when [loop] returns. *)
Lemma loop_shape fuel (r : Run U) :
  let out := loop resolve body fuel r in
  ∃ mid tail,
    dispatches (trace (run_of out))
    = dispatches (trace r) ++ (AtLoopStart, event_loop_start, PyNone) :: mid ++ tail
    ∧ Forall (λ t, drain_site t.1.1 = true) mid
    ∧ (tail = [] ∨ tail = [(AtLoopEnd, event_loop_end, PyNone)])
    ∧ (returned out = true → tail = [(AtLoopEnd, event_loop_end, PyNone)]).
Proof.
  unfold loop.
  destruct (dispatch_ext resolve body fuel AtLoopStart event_loop_start PyNone r)
    as (ext1 & Ht1 & Hl1 & _).
  assert (Hd1 : dispatches (trace (run_of (dispatch_event resolve body fuel AtLoopStart
                                             event_loop_start PyNone r)))
                = dispatches (trace r) ++ [(AtLoopStart, event_loop_start, PyNone)]).
  { rewrite Ht1. by apply dispatches_dispatch. }
  clear Ht1. destruct (dispatch_event resolve body fuel AtLoopStart _ _ r) as [r1| |];
    simpl in *;
    [|exists [], []; rewrite Hd1; by repeat split; auto..].
  set (out2 := if negb (exit (world r1)) && bool_decide (queue (world r1) = [])
               then dispatch_event resolve body fuel PreDrain event_queue_empty PyNone r1
               else Done r1).
  assert (Hdr2 : drained r1 (run_of out2)).
  { unfold out2. destruct (negb _ && _); [by apply dispatch_drained | by apply drained_refl]. }
  destruct out2 as [r2| |]; simpl in *.
  2,3: destruct Hdr2 as (mid & Hmid & Hsites); exists mid, [];
       rewrite Hmid, Hd1, app_nil_r, <- app_assoc; by repeat split; auto.
  pose proof (drained_trans _ _ _ Hdr2 (drain_drained resolve body fuel r2)) as Hdr3.
  destruct (drain resolve body fuel r2) as [r3| |]; simpl in *.
  2,3: destruct Hdr3 as (mid & Hmid & Hsites); exists mid, [];
       rewrite Hmid, Hd1, app_nil_r, <- app_assoc; by repeat split; auto.
  destruct Hdr3 as (mid & Hmid & Hsites).
  destruct (dispatch_ext resolve body fuel AtLoopEnd event_loop_end PyNone r3)
    as (ext4 & Ht4 & Hl4 & _).
  exists mid, [(AtLoopEnd, event_loop_end, PyNone)].
  rewrite Ht4, (dispatches_dispatch _ _ _ _ _ _ Hl4), Hmid, Hd1, <- !app_assoc.
  by repeat split; auto.
Qed.

Lemma dispatches_elem (tr : list obs) s e d :
  (s, e, d) ∈ dispatches tr → ∃ x, ODispatch s e d x ∈ tr.
Proof.
  unfold dispatches. intros (ob & Hin & Hob)%list_elem_of_omap.
  destruct ob; try done. injection Hob as -> -> ->. eauto.
Qed.

Lemma popped_elem (tr : list obs) e d x :
  ODispatch Popped e d x ∈ tr → (e, d) ∈ popped tr.
Proof.
  intros Hin. unfold popped. apply list_elem_of_omap. eauto.
Qed.

Lemma guarded_elem (tr : list obs) s e d x :
  forallb guarded tr = true → ODispatch s e d x ∈ tr →
  s = PreDrain ∨ s = InDrain → e = event_queue_empty ∧ x = false.
Proof.
  intros Hg Hin Hs. rewrite forallb_forall in Hg.
  apply list_elem_of_In, Hg in Hin.
  destruct Hs as [-> | ->]; simpl in Hin;
    apply andb_true_iff in Hin as [Hx He%bool_decide_eq_true];
    by destruct x.
Qed.

End LoopShape.

(** C5 as stated fails.  With [exit] true when [loop] is called, an
    empty queue and listeners that queue nothing, [loop] dispatches
    [event_loop_start] and [event_loop_end] and nothing between them. *)
Lemma no_queue_empty_when_exit_is_set :
  let w := system [] [] true in
  let out := loop all_alive idle 5 (start w) in
  queue w = [] ∧ returned out = true ∧ queued (trace (run_of out)) = []
  ∧ dispatches (trace (run_of out))
    = [(AtLoopStart, event_loop_start, PyNone); (AtLoopEnd, event_loop_end, PyNone)].
Proof. vm_compute. done. Qed.

(** C5, amended.  In every run of [loop], finished or not, the dispatch
    of [event_loop_start] is the first dispatch; after it come the
    dispatches of the drain loop (popped events and
    [event_queue_empty]) and then, at most once and as the last
    dispatch, the one of [event_loop_end]; when [loop] returns it has
    been made, whatever made the drain loop stop.  When nobody triggers
    [event_loop_end] this is the only dispatch of that event.  With an
    empty queue, listeners that queue nothing and [exit] false after
    [event_loop_start], the dispatches of a run are [event_loop_start],
    [event_queue_empty], [event_loop_end]; with [exit] true they are
    [event_loop_start], [event_loop_end]. *)
Theorem loop_start_first_loop_end_last {U} resolve body fuel (w : World U) :
  (let out := loop resolve body fuel (start w) in
   ∃ mid tail,
     dispatches (trace (run_of out))
     = (AtLoopStart, event_loop_start, PyNone) :: mid ++ tail
     ∧ Forall (λ t, drain_site t.1.1 = true) mid
     ∧ (tail = [] ∨ tail = [(AtLoopEnd, event_loop_end, PyNone)])
     ∧ (returned out = true → tail = [(AtLoopEnd, event_loop_end, PyNone)])
     ∧ (event_loop_end ∉ (queue w ++ queued (trace (run_of out))).*1 →
        Forall (λ t, t.1.2 ≠ event_loop_end) mid))
  ∧ (∀ r1 r2 r3,
       queue w = [] →
       dispatch_event resolve body fuel AtLoopStart event_loop_start PyNone (start w) = Done r1 →
       queue (world r1) = [] → exit (world r1) = false →
       dispatch_event resolve body fuel PreDrain event_queue_empty PyNone r1 = Done r2 →
       queue (world r2) = [] →
       dispatch_event resolve body fuel AtLoopEnd event_loop_end PyNone r2 = Done r3 →
       loop resolve body fuel (start w) = Done r3
       ∧ dispatches (trace r3)
         = [(AtLoopStart, event_loop_start, PyNone);
            (PreDrain, event_queue_empty, PyNone);
            (AtLoopEnd, event_loop_end, PyNone)])
  ∧ (∀ r1 r3,
       queue w = [] →
       dispatch_event resolve body fuel AtLoopStart event_loop_start PyNone (start w) = Done r1 →
       queue (world r1) = [] → exit (world r1) = true →
       dispatch_event resolve body fuel AtLoopEnd event_loop_end PyNone r1 = Done r3 →
       loop resolve body fuel (start w) = Done r3
       ∧ dispatches (trace r3)
         = [(AtLoopStart, event_loop_start, PyNone);
            (AtLoopEnd, event_loop_end, PyNone)]).
Proof.
  split; [|split].
  - intros out.
    destruct (loop_shape resolve body fuel (start w)) as (mid & tail & Hd & Hsites & Htail & Hret).
    fold out in Hd, Hret. simpl in Hd.
    exists mid, tail. split; [done|]. split; [done|]. split; [done|]. split; [done|].
    intros Hnot. apply Forall_forall. intros [[s e] d] Hin. simpl. intros ->.
    rewrite Forall_forall in Hsites. pose proof (Hsites _ Hin) as Hs. simpl in Hs.
    assert (Hin' : (s, event_loop_end, d) ∈ dispatches (trace (run_of out))).
    { rewrite Hd. right. apply elem_of_app. by left. }
    apply dispatches_elem in Hin' as [x Hin'].
    assert (Hfifo : fifo (queue w) (run_of out)).
    { apply (fifo_steps body (queue w) (start w)); [apply loop_steps|].
      unfold fifo. simpl. by rewrite app_nil_r. }
    assert (Hguard : forallb guarded (trace (run_of out)) = true).
    { by apply (guarded_steps body (start w) _ (loop_steps resolve body fuel (start w))). }
    destruct s; try done.
    + by destruct (guarded_elem _ _ _ _ _ Hguard Hin' (or_introl eq_refl)).
    + apply popped_elem in Hin'. apply Hnot. unfold fifo in Hfifo. rewrite <- Hfifo.
      rewrite fmap_app. apply elem_of_app. left.
      apply list_elem_of_fmap. by exists (event_loop_end, d).
    + by destruct (guarded_elem _ _ _ _ _ Hguard Hin' (or_intror eq_refl)).
  - intros r1 r2 r3 Hq H1 Hq1 Hx1 H2 Hq2 H3. split.
    + eapply loop_on_empty_queue; [exact H1|exact Hq1| |exact Hq2|exact H3].
      by rewrite Hx1.
    + apply dispatch_done_dispatches in H1 as Hd1, H2 as Hd2, H3 as Hd3.
      by rewrite Hd3, Hd2, Hd1.
  - intros r1 r3 Hq H1 Hq1 Hx1 H3. split.
    + eapply loop_on_empty_queue; [exact H1|exact Hq1| |exact Hq1|exact H3].
      by rewrite Hx1.
    + apply dispatch_done_dispatches in H1 as Hd1, H3 as Hd3.
      by rewrite Hd3, Hd1.
Qed.

(** test_with_empty_queue. *)
Lemma loop_start_first_loop_end_last_witness :
  let w := system [(event_loop_start, one_owner [90]); (event_loop_end, one_owner [90]);
                   (event_queue_empty, one_owner [90])] [] false in
  let r1 := run_of (dispatch_event all_alive idle 5 AtLoopStart event_loop_start PyNone (start w)) in
  let r2 := run_of (dispatch_event all_alive idle 5 PreDrain event_queue_empty PyNone r1) in
  let r3 := run_of (dispatch_event all_alive idle 5 AtLoopEnd event_loop_end PyNone r2) in
  queue w = [] ∧ queue (world r1) = [] ∧ exit (world r1) = false ∧ queue (world r2) = []
  ∧ loop all_alive idle 5 (start w) = Done r3
  ∧ dispatches (trace r3)
    = [(AtLoopStart, event_loop_start, PyNone); (PreDrain, event_queue_empty, PyNone);
       (AtLoopEnd, event_loop_end, PyNone)].
Proof.
  intros w r1 r2 r3.
  split; [reflexivity|]. split; [reflexivity|]. split; [reflexivity|]. split; [reflexivity|].
  exact (proj1 (proj2 (loop_start_first_loop_end_last all_alive idle 5 w)) r1 r2 r3
           eq_refl eq_refl eq_refl eq_refl eq_refl eq_refl eq_refl).
Defined.

(** C10 as stated fails.  [loop] is called with [exit] false and an
    empty queue; the listener of [event_queue_empty] queues nothing and
    sets [exit].  [loop] returns with [exit] true although the drain
    loop never ran. *)
Lemma exit_set_without_drain :
  let w := system [(event_queue_empty, one_owner [40])] [] false in
  let out := loop all_alive toggle 5 (start w) in
  exit w = false ∧ queue w = [] ∧ returned out = true
  ∧ queued (trace (run_of out)) = []
  ∧ dispatches (trace (run_of out))
    = [(AtLoopStart, event_loop_start, PyNone); (PreDrain, event_queue_empty, PyNone);
       (AtLoopEnd, event_loop_end, PyNone)]
  ∧ exit (world (run_of out)) = true.
Proof. vm_compute. done. Qed.

(** C10, amended.  When [loop] is called with [exit] false and an empty
    queue, the dispatch of [event_queue_empty] before the drain loop is
    made and queues nothing, then [loop] dispatches [event_loop_end] and
    returns without having set [exit] itself: [exit] is false at the
    return unless a listener assigned it.  Only the check inside the
    drain loop makes [loop] set [exit], the one before it never does. *)
Theorem pre_drain_check_leaves_exit {U} resolve body fuel (w : World U) r1 r2 r3 :
  exit w = false → queue w = [] →
  dispatch_event resolve body fuel AtLoopStart event_loop_start PyNone (start w) = Done r1 →
  exit (world r1) = false → queue (world r1) = [] →
  dispatch_event resolve body fuel PreDrain event_queue_empty PyNone r1 = Done r2 →
  queue (world r2) = [] →
  dispatch_event resolve body fuel AtLoopEnd event_loop_end PyNone r2 = Done r3 →
  loop resolve body fuel (start w) = Done r3
  ∧ (OLoopExit ∉ trace r3)
  ∧ (exit_untouched body → exit (world r3) = false).
Proof.
  intros Hx Hq H1 Hx1 Hq1 H2 Hq2 H3. split; [|split].
  - eapply loop_on_empty_queue; [exact H1|exact Hq1| |exact Hq2|exact H3].
    by rewrite Hx1.
  - apply dispatch_done_ext in H1 as (ext1 & Ht1 & Hl1), H2 as (ext2 & Ht2 & Hl2),
      H3 as (ext3 & Ht3 & Hl3).
    rewrite Ht3, Ht2, Ht1. simpl. intros Hin.
    rewrite elem_of_cons, !elem_of_app, !elem_of_cons in Hin.
    destruct Hin as [Hin|[[Hin|[Hin|Hin]]|[Hin|Hin]]];
      first [ discriminate Hin
            | by apply (by_listener_not_loop_exit ext1 Hl1)
            | by apply (by_listener_not_loop_exit ext2 Hl2)
            | by apply (by_listener_not_loop_exit ext3 Hl3) ].
  - intros Hun.
    pose proof (dispatch_exit resolve body fuel AtLoopEnd event_loop_end PyNone r2 Hun) as E3.
    pose proof (dispatch_exit resolve body fuel PreDrain event_queue_empty PyNone r1 Hun) as E2.
    rewrite H3 in E3. rewrite H2 in E2. simpl in *. by rewrite E3, E2.
Qed.

Lemma exit_untouched_faulty : exit_untouched faulty.
Proof.
  intros f o e d ld w b Hin. unfold faulty in Hin.
  repeat case_decide; apply list_elem_of_In in Hin; simpl in Hin;
    intuition discriminate.
Defined.

(** The listener of [event_queue_empty] fails and queues nothing. *)
Lemma pre_drain_check_leaves_exit_witness :
  let w := system [(event_queue_empty, one_owner [60])] [] false in
  let r1 := run_of (dispatch_event all_alive faulty 5 AtLoopStart event_loop_start PyNone (start w)) in
  let r2 := run_of (dispatch_event all_alive faulty 5 PreDrain event_queue_empty PyNone r1) in
  let r3 := run_of (dispatch_event all_alive faulty 5 AtLoopEnd event_loop_end PyNone r2) in
  exit w = false ∧ queue w = [] ∧ exit (world r1) = false ∧ queue (world r1) = []
  ∧ queue (world r2) = [] ∧ exit_untouched faulty
  ∧ loop all_alive faulty 5 (start w) = Done r3
  ∧ tracebacks (trace r3) = [UserError 1]
  ∧ exit (world r3) = false.
Proof.
  intros w r1 r2 r3.
  destruct (pre_drain_check_leaves_exit all_alive faulty 5 w r1 r2 r3
              eq_refl eq_refl eq_refl eq_refl eq_refl eq_refl eq_refl eq_refl)
    as (Hloop & _ & Hexit).
  split; [reflexivity|]. split; [reflexivity|]. split; [reflexivity|].
  split; [reflexivity|]. split; [reflexivity|].
  split; [exact exit_untouched_faulty|]. split; [exact Hloop|].
  split; [reflexivity|]. exact (Hexit exit_untouched_faulty).
Defined.

(** * Further properties of [Event] *)

Section MoreEventFacts.
Implicit Types (ev : Event.t) (o : owner) (f : func) (l : list (func * Any)).

Lemma filter_twice {A} (P : A → Prop) `{∀ x, Decision (P x)} (l : list A) :
  filter P (filter P l) = filter P l.
Proof.
  apply filter_all, Forall_forall. intros x Hx. by apply list_elem_of_filter in Hx as [? _].
Qed.

Lemma unregister_object_view ev o :
  Event.ok ev →
  let ev' := Event.unregister_object o ev in
  Event.sequence ev' o = []
  ∧ Event.keys ev' = filter (λ o', o' ≠ o) (Event.keys ev)
  ∧ (∀ o', o' ≠ o → Event.sequence ev' o' = Event.sequence ev o')
  ∧ (o ∉ Event.keys ev → ev' = ev).
Proof.
  intros Hok. cbv zeta. unfold Event.unregister_object, Event.keys.
  destruct (Py.contains o (Event.listeners ev)) eqn:Hc.
  - split; [|split; [|split]].
    + unfold Event.sequence. simpl. by rewrite get_del_eq by apply Hok.
    + simpl. apply del_keys, Hok.
    + intros o' Hne. unfold Event.sequence, Event.cell. simpl.
      by rewrite get_del_ne.
    + intros Hnin. by apply contains_true in Hc.
  - apply contains_false in Hc. split; [|split; [|done]].
    + unfold Event.sequence. by apply get_None in Hc as ->.
    + symmetry. apply filter_all, Forall_forall. by intros x Hx ->.
Qed.

End MoreEventFacts.

(** X1.  [unregister_object] removes the whole sequence of the owner and
    its key, keeps the other owners, their sequences and their order,
    does nothing when the owner is no key, and a second call changes
    nothing more. *)
Theorem unregister_object_removes_owner ev o :
  Event.ok ev →
  let ev' := Event.unregister_object o ev in
  Event.sequence ev' o = []
  ∧ (o ∉ Event.keys ev')
  ∧ Event.keys ev' = filter (λ o', o' ≠ o) (Event.keys ev)
  ∧ (∀ o', o' ≠ o → Event.sequence ev' o' = Event.sequence ev o')
  ∧ (o ∉ Event.keys ev → ev' = ev)
  ∧ Event.unregister_object o ev' = ev'.
Proof.
  intros Hok ev'.
  destruct (unregister_object_view ev o Hok) as (Hseq & Hkeys & Hoth & Hid).
  fold ev' in Hseq, Hkeys, Hoth, Hid.
  assert (Hnin : o ∉ Event.keys ev').
  { rewrite Hkeys. intros Hin. by apply list_elem_of_filter in Hin as [Hne _]. }
  split; [done|]. split; [done|]. split; [done|]. split; [done|]. split; [done|].
  apply (unregister_object_view ev' o); [|done].
  by apply ok_unregister_object.
Qed.

Lemma unregister_object_removes_owner_witness :
  Event.ok sample_event
  ∧ Event.keys (Event.unregister_object 1 sample_event) = []
  ∧ Event.unregister_object 2 sample_event = sample_event.
Proof.
  split; [exact sample_event_ok|]. split.
  - exact (proj1 (proj2 (proj2 (unregister_object_removes_owner sample_event 1
                                  sample_event_ok)))).
  - exact (proj2 (proj2 (proj2 (proj2 (proj2 (unregister_object_removes_owner
                                               sample_event 2 sample_event_ok)))))).
Defined.

(** X2.  [internal_unregister_listener] deletes without a test: it
    raises [KeyError] exactly when the owner is no key; when the owner
    is a key it does what [unregister_object] does, and calling it a
    second time raises [KeyError]. *)
Theorem internal_unregister_listener_needs_key ev o :
  Event.ok ev →
  (o ∈ Event.keys ev →
     Event.internal_unregister_listener o ev = Ok (Event.unregister_object o ev)
     ∧ Event.internal_unregister_listener o (Event.unregister_object o ev) = Err KeyError)
  ∧ (o ∉ Event.keys ev → Event.internal_unregister_listener o ev = Err KeyError).
Proof.
  intros Hok. split.
  - intros Hin. apply contains_true in Hin as Hc.
    unfold Event.internal_unregister_listener at 1, Event.unregister_object at 1.
    rewrite Hc. split; [done|].
    destruct (unregister_object_view ev o Hok) as (_ & Hkeys & _).
    unfold Event.internal_unregister_listener.
    rewrite (proj2 (contains_false o _)); [done|].
    change (o ∉ Event.keys (Event.unregister_object o ev)). rewrite Hkeys.
    intros Hin'. by apply list_elem_of_filter in Hin' as [Hne _].
  - intros Hnin. unfold Event.internal_unregister_listener.
    by rewrite (proj2 (contains_false o _)).
Qed.

Lemma internal_unregister_listener_needs_key_witness :
  Event.ok sample_event
  ∧ Event.internal_unregister_listener 1 sample_event = Ok (Event.mk [] [[(10, PyStr "spam")]])
  ∧ Event.internal_unregister_listener 2 sample_event = Err KeyError.
Proof.
  split; [exact sample_event_ok|]. split.
  - apply (proj1 (internal_unregister_listener_needs_key sample_event 1 sample_event_ok)).
    vm_compute. apply list_elem_of_In. simpl. by left.
  - apply (proj2 (internal_unregister_listener_needs_key sample_event 2 sample_event_ok)).
    vm_compute. intros Hin. apply list_elem_of_In in Hin. simpl in Hin. intuition discriminate.
Defined.

(** X3.  Registering a bound method and unregistering it again: the
    table shows what unregistering alone would have left, since
    [unregister_method] removes every entry of the method, the new one
    and the earlier ones; when the method was not registered for the
    owner before, the keys, their order and all sequences are as they
    were. *)
Theorem register_then_unregister_method ev o f ld :
  Event.ok ev →
  ∃ ev1,
    Event.register_listener (BoundMethod o f) ld ev = Ok ev1
    ∧ let ev2 := Event.unregister_method (BoundMethod o f) ev1 in
      let ev0 := Event.unregister_method (BoundMethod o f) ev in
      Event.keys ev2 = Event.keys ev0
      ∧ (∀ o', Event.sequence ev2 o' = Event.sequence ev0 o')
      ∧ ((∀ c, c ∈ Event.sequence ev o → c.1 ≠ f) →
         Event.keys ev2 = Event.keys ev
         ∧ ∀ o', Event.sequence ev2 o' = Event.sequence ev o').
Proof.
  intros Hok.
  destruct (register_bound ev o f ld Hok) as (ev1 & Hreg & Hok1 & Hs1 & Hoth1 & Hkeys1).
  exists ev1. split; [done|]. cbv zeta.
  destruct (unregister_bound ev1 o f Hok1) as (_ & Hs2 & Hoth2 & Hkeys2 & _).
  destruct (unregister_bound ev o f Hok) as (_ & Hs0 & Hoth0 & Hkeys0 & Hid0).
  assert (Hkept : filter (λ c, c.1 ≠ f) (Event.sequence ev1 o)
                  = filter (λ c, c.1 ≠ f) (Event.sequence ev o)).
  { rewrite Hs1, filter_app.
    rewrite (filter_cons_False _ (f, ld)) by (intros Hc; by apply Hc).
    by rewrite filter_nil, app_nil_r. }
  rewrite Hkept in Hs2, Hkeys2.
  assert (Hk : Event.keys (Event.unregister_method (BoundMethod o f) ev1)
               = Event.keys (Event.unregister_method (BoundMethod o f) ev)).
  { rewrite Hkeys2, Hkeys0, Hkeys1. case_decide as Hd.
    - case_bool_decide as Hin; [done|].
      rewrite filter_app. rewrite (filter_cons_False _ o) by (intros Hc; by apply Hc).
      by rewrite filter_nil, app_nil_r.
    - rewrite bool_decide_eq_true_2; [done|].
      apply sequence_present; [done|]. intros Hs. apply Hd. by rewrite Hs. }
  assert (Hseq : ∀ o', Event.sequence (Event.unregister_method (BoundMethod o f) ev1) o'
                       = Event.sequence (Event.unregister_method (BoundMethod o f) ev) o').
  { intros o'. destruct (decide (o' = o)) as [->|Hne].
    - by rewrite Hs2, Hs0.
    - by rewrite Hoth2, Hoth0, Hoth1. }
  split; [done|]. split; [done|].
  intros Hfresh.
  assert (Hsame : Event.unregister_method (BoundMethod o f) ev = ev).
  { apply Hid0, filter_all, Forall_forall. done. }
  rewrite Hsame in Hk, Hseq. done.
Qed.

Lemma register_then_unregister_method_witness :
  Event.ok sample_event
  ∧ ∃ ev1,
      Event.register_listener (BoundMethod 1 11) PyNone sample_event = Ok ev1
      ∧ Event.keys (Event.unregister_method (BoundMethod 1 11) ev1) = [1]
      ∧ Event.sequence (Event.unregister_method (BoundMethod 1 11) ev1) 1
        = [(10, PyStr "spam")].
Proof.
  split; [exact sample_event_ok|].
  destruct (register_then_unregister_method sample_event 1 11 PyNone sample_event_ok)
    as (ev1 & Hreg & _ & _ & Hfresh).
  exists ev1. split; [exact Hreg|].
  destruct Hfresh as [Hk Hs].
  - intros c Hc. vm_compute in Hc. apply list_elem_of_In in Hc. simpl in Hc.
    destruct Hc as [<-|[]]. simpl. discriminate.
  - split; [exact Hk | exact (Hs 1)].
Defined.

(** X4.  [unregister_method] removes all entries of the method at once:
    calling it a second time with the same callable leaves the event
    exactly as the first call left it. *)
Theorem unregister_method_idempotent ev m :
  Event.ok ev →
  Event.unregister_method m (Event.unregister_method m ev) = Event.unregister_method m ev.
Proof.
  intros Hok. destruct m as [o f|g]; [|done].
  destruct (unregister_bound ev o f Hok) as (Hok' & Hs & _).
  destruct (unregister_bound (Event.unregister_method (BoundMethod o f) ev) o f Hok')
    as (_ & _ & _ & _ & Hid).
  apply Hid. rewrite Hs. apply filter_twice.
Qed.

Lemma unregister_method_idempotent_witness :
  Event.ok sample_event
  ∧ Event.unregister_method (BoundMethod 1 10)
      (Event.unregister_method (BoundMethod 1 10) sample_event)
    = Event.mk [] [[]].
Proof.
  split; [exact sample_event_ok|].
  exact (unregister_method_idempotent sample_event (BoundMethod 1 10) sample_event_ok).
Defined.

(** X5.  Any number of registrations of bound methods, one after the
    other, keep the table well formed and group the callbacks by owner:
    an owner that was a key keeps its place, a new owner becomes the last
    key at its first registration, and the sequence of each owner is its
    old sequence followed by what was registered for it, in the order of
    the registrations. *)
Theorem register_all_groups_by_owner regs ev :
  Event.ok ev →
  let ev' := register_all regs ev in
  Event.ok ev'
  ∧ Event.keys ev' = keys_after (Event.keys ev) regs.*1.*1
  ∧ ∀ o, Event.sequence ev' o = Event.sequence ev o ++ registered_for o regs.
Proof.
  revert ev. induction regs as [|[[o f] ld] regs IH]; intros ev Hok; cbv zeta.
  - split; [done|]. split; [done|]. intros o. by rewrite app_nil_r.
  - destruct (register_bound ev o f ld Hok) as (ev1 & Hreg & Hok1 & Hs1 & Hoth1 & Hkeys1).
    assert (Heq : register_all ((o, f, ld) :: regs) ev = register_all regs ev1).
    { cbn [register_all]. by rewrite Hreg. }
    rewrite Heq. destruct (IH ev1 Hok1) as (Hok' & Hkeys' & Hseq').
    split; [done|]. split.
    + rewrite Hkeys', Hkeys1. done.
    + intros o'. rewrite Hseq'. unfold registered_for. cbn [omap list_omap fst snd].
      destruct (decide (o = o')) as [<-|Hne].
      * by rewrite Hs1, <- app_assoc.
      * by rewrite Hoth1.
Qed.

(** Three registrations, for owners 1, 2 and 1 again: the callbacks of
    owner 1 come first, both of them. *)
Lemma register_all_groups_by_owner_witness :
  let ev' := register_all [(1, 10, PyNone); (2, 20, PyNone); (1, 11, PyNone)] Event.new in
  Event.ok Event.new
  ∧ Event.keys ev' = [1; 2]
  ∧ Event.sequence ev' 1 = [(10, PyNone); (11, PyNone)]
  ∧ snapshot Samples.all_alive 5 PyNone ev'
    = [OCall 10 1 5 PyNone PyNone; OCall 11 1 5 PyNone PyNone; OCall 20 2 5 PyNone PyNone].
Proof.
  intros ev'. split; [exact ok_new|].
  destruct (register_all_groups_by_owner
              [(1, 10, PyNone); (2, 20, PyNone); (1, 11, PyNone)] Event.new ok_new)
    as (_ & Hkeys & Hseq).
  split; [exact Hkeys|]. split; [exact (Hseq 1) | reflexivity].
Defined.

(** * Further properties of the dispatcher *)

Section MoreDispatcher.
Context {U : Type}.
Variable resolve : owner → bool.
Variable body : func → owner → event_id → Any → Any → World U → list (action U).
Implicit Types (r : Run U) (w : World U) (e : event_id) (d ld : Any) (o : owner) (f : func).

Local Abbreviation lsteps := (rtc (lstep body)).
Local Abbreviation steps := (rtc (step body)).

(** The four parts of a run of [loop] that returns. *)
Lemma loop_done fuel r r' :
  loop resolve body fuel r = Done r' →
  ∃ r1 r2 r3,
    dispatch_event resolve body fuel AtLoopStart event_loop_start PyNone r = Done r1
    ∧ (if negb (exit (world r1)) && bool_decide (queue (world r1) = [])
       then dispatch_event resolve body fuel PreDrain event_queue_empty PyNone r1
       else Done r1) = Done r2
    ∧ drain resolve body fuel r2 = Done r3
    ∧ dispatch_event resolve body fuel AtLoopEnd event_loop_end PyNone r3 = Done r'.
Proof.
  unfold loop. intros H.
  destruct (dispatch_event resolve body fuel AtLoopStart event_loop_start PyNone r)
    as [r1| |]; simpl in H; [|done|done].
  match type of H with bind ?o _ = _ => destruct o as [r2| |] eqn:H2 end;
    simpl in H; [|done|done].
  destruct (drain resolve body fuel r2) as [r3| |] eqn:H3; simpl in H; [|done|done].
  by exists r1, r2, r3.
Qed.

Lemma popped_dispatch (tr : list obs) s e d x ext :
  s ≠ Popped → Forall (λ ob, by_listener ob = true) ext →
  popped (tr ++ ODispatch s e d x :: ext) = popped tr.
Proof.
  intros Hs Hext. pose proof (by_listener_popped ext Hext) as Hp.
  unfold popped in *.
  replace (tr ++ ODispatch s e d x :: ext) with ((tr ++ [ODispatch s e d x]) ++ ext)
    by (by rewrite <- app_assoc).
  rewrite !omap_app, Hp, app_nil_r.
  replace (omap _ [ODispatch s e d x]) with (@nil (event_id * Any)); [by rewrite app_nil_r|].
  by destruct s.
Qed.

Lemma queued_dispatch (tr : list obs) s e d x ext :
  queued (tr ++ ODispatch s e d x :: ext) = queued tr ++ queued ext.
Proof.
  unfold queued.
  replace (tr ++ ODispatch s e d x :: ext) with ((tr ++ [ODispatch s e d x]) ++ ext)
    by (by rewrite <- app_assoc).
  rewrite !omap_app. replace (omap _ [ODispatch s e d x]) with (@nil (event_id * Any)) by done.
  by rewrite app_nil_r.
Qed.

(** What the two dispatches before the drain loop leave: nothing is
    popped yet. *)
Lemma pre_drain_popped fuel r r1 r2 :
  dispatch_event resolve body fuel AtLoopStart event_loop_start PyNone r = Done r1 →
  (if negb (exit (world r1)) && bool_decide (queue (world r1) = [])
   then dispatch_event resolve body fuel PreDrain event_queue_empty PyNone r1
   else Done r1) = Done r2 →
  popped (trace r2) = popped (trace r).
Proof.
  intros (ext1 & Ht1 & Hl1)%dispatch_done_ext H2.
  assert (Hp1 : popped (trace r1) = popped (trace r)) by (rewrite Ht1; by apply popped_dispatch).
  revert H2. destruct (negb _ && _); intros H2.
  - apply dispatch_done_ext in H2 as (ext2 & Ht2 & Hl2).
    rewrite Ht2, popped_dispatch; done.
  - by injection H2 as <-.
Qed.

(** The check after a dispatch returns with an empty queue only when
    [exit] is set. *)
Lemma check_empty_exit fuel r r2 :
  check_empty resolve body fuel r = Done r2 → queue (world r2) = [] → exit (world r2) = true.
Proof.
  unfold check_empty.
  destruct (bool_decide (queue (world r) = [])) eqn:Hq; simpl.
  - destruct (exit (world r)) eqn:Hx; simpl; [by intros [= <-]|].
    destruct (dispatch_event _ _ _ _ _ _ _) as [r1| |]; simpl; [|done|done].
    destruct (bool_decide (queue (world r1) = [])) eqn:Hq1; intros [= <-]; [done|].
    apply bool_decide_eq_false in Hq1. done.
  - intros [= <-] Hq2. apply bool_decide_eq_false in Hq. done.
Qed.

(** A drain loop that had something to dispatch returns with [exit]
    set. *)
Lemma drain_exit fuel r r' :
  drain resolve body fuel r = Done r' → queue (world r) ≠ [] → exit (world r') = true.
Proof.
  revert r. induction fuel as [|n IH]; intros r; simpl; [done|].
  destruct (queue (world r)) as [|[e d] q] eqn:Hq; [done|]. intros H _.
  destruct (dispatch_event _ _ _ _ _ _ _) as [r1| |]; simpl in H; [|done|done].
  destruct (check_empty resolve body n r1) as [r2| |] eqn:Hc; simpl in H; [|done|done].
  destruct (queue (world r2)) as [|p q2] eqn:Hq2.
  - destruct n as [|m]; [done|]. simpl in H. rewrite Hq2 in H. injection H as <-.
    by eapply check_empty_exit.
  - apply (IH r2); [done|]. by rewrite Hq2.
Qed.

Lemma lsteps_exit_kept r r' :
  exit_never_cleared body → lsteps r r' → exit (world r) = true → exit (world r') = true.
Proof.
  intros Hnc. induction 1 as [r|r r1 r2 H1 _ IH]; [done|]. intros Hx. apply IH.
  destruct H1 as [f o e d ld r|f o e d ld w a r Ha|x r]; [done| |done].
  rewrite perform_exit. destruct a as [| | | |b| |]; try done.
  destruct b; [done|]. by apply Hnc in Ha.
Qed.

End MoreDispatcher.

(** X6.  When [loop] returns, every event that waited on the queue at
    the start and every event triggered before the dispatch of
    [event_loop_end] has been dispatched, in that order; the events
    that the listeners of [event_loop_end] trigger are not dispatched:
    they are what the queue holds when [loop] returns. *)
Theorem loop_end_triggers_stay_queued {U} resolve body fuel (w : World U) r' :
  loop resolve body fuel (start w) = Done r' →
  ∃ tr x ext,
    trace r' = tr ++ ODispatch AtLoopEnd event_loop_end PyNone x :: ext
    ∧ Forall (λ ob, by_listener ob = true) ext
    ∧ popped (trace r') = queue w ++ queued tr
    ∧ queue (world r') = queued ext.
Proof.
  intros Hloop.
  pose proof (fifo_steps body (queue w) (start w) _
                (loop_steps resolve body fuel (start w))) as Hfifo.
  rewrite Hloop in Hfifo. simpl in Hfifo. unfold fifo in Hfifo. simpl in Hfifo.
  specialize (Hfifo (eq_sym (app_nil_r _))).
  apply loop_done in Hloop as (r1 & r2 & r3 & _ & _ & H3 & H4).
  apply drain_done in H3.
  destruct (dispatch_ext resolve body fuel AtLoopEnd event_loop_end PyNone r3)
    as (ext & Ht & Hl & Hq).
  rewrite H4 in Ht, Hq. simpl in Ht, Hq. rewrite H3 in Hq. simpl in Hq.
  exists (trace r3), (exit (world r3)), ext.
  split; [done|]. split; [done|]. split; [|done].
  rewrite Ht, Hq, queued_dispatch, popped_dispatch, app_assoc in Hfifo by done.
  apply app_inv_tail in Hfifo. by rewrite Ht, popped_dispatch.
Qed.

(** One event waits; its listener does nothing, the listener of
    [event_loop_end] triggers event 7, which is still queued at the
    end. *)
Lemma loop_end_triggers_stay_queued_witness :
  let w := system [(5, one_owner [60]); (event_loop_end, one_owner [61])]
             [(5, PyNone)] false in
  ∃ r', loop all_alive faulty 20 (start w) = Done r'
    ∧ popped (trace r') = [(5, PyNone)]
    ∧ queue (world r') = [(7, PyNone)].
Proof.
  intros w. exists (run_of (loop all_alive faulty 20 (start w))).
  assert (Hloop : loop all_alive faulty 20 (start w)
                  = Done (run_of (loop all_alive faulty 20 (start w))))
    by (vm_compute; reflexivity).
  split; [exact Hloop|].
  destruct (loop_end_triggers_stay_queued all_alive faulty 20 w _ Hloop)
    as (tr & x & ext & _ & _ & _ & _).
  split; vm_compute; reflexivity.
Defined.

(** X7.  A run of [loop] that dispatched at least one event from the
    queue and returns has set [exit], or found it set, before
    [event_loop_end] is dispatched: the listeners of [event_loop_end]
    are called with [exit] true, and unless one of them clears it,
    [exit] is true when [loop] returns. *)
Theorem loop_end_sees_exit_after_drain {U} resolve body fuel (w : World U) r' :
  loop resolve body fuel (start w) = Done r' →
  popped (trace r') ≠ [] →
  ∃ tr ext,
    trace r' = tr ++ ODispatch AtLoopEnd event_loop_end PyNone true :: ext
    ∧ Forall (λ ob, by_listener ob = true) ext
    ∧ (exit_never_cleared body → exit (world r') = true).
Proof.
  intros (r1 & r2 & r3 & H1 & H2 & H3 & H4)%loop_done Hpop.
  pose proof (pre_drain_popped resolve body fuel _ _ _ H1 H2) as Hp2. simpl in Hp2.
  apply dispatch_done_ext in H4 as H4'. destruct H4' as (ext & Ht & Hl).
  assert (Hx3 : exit (world r3) = true).
  { apply (drain_exit resolve body fuel r2); [done|]. intros Hq2. apply Hpop.
    rewrite Ht, popped_dispatch by done.
    destruct fuel as [|n]; [done|]. simpl in H3. rewrite Hq2 in H3. by injection H3 as <-. }
  rewrite Hx3 in Ht. exists (trace r3), ext. split; [done|]. split; [done|].
  intros Hnc. unfold dispatch_event in H4.
  pose proof (for_owners_lsteps resolve body fuel event_loop_end PyNone
                (length (Event.internal_get_listeners
                           (events (world (log (ODispatch AtLoopEnd event_loop_end PyNone
                                                  (exit (world r3))) r3)) event_loop_end)))
                0 (log (ODispatch AtLoopEnd event_loop_end PyNone (exit (world r3))) r3))
    as Hls.
  rewrite H4 in Hls. by apply (lsteps_exit_kept body _ _ Hnc Hls).
Qed.

Lemma loop_end_sees_exit_after_drain_witness :
  let w := system [(5, one_owner [60; 61])] [(5, PyNone)] false in
  ∃ r', loop all_alive faulty 20 (start w) = Done r'
    ∧ popped (trace r') = [(5, PyNone); (7, PyNone)]
    ∧ exit (world r') = true.
Proof.
  intros w. exists (run_of (loop all_alive faulty 20 (start w))).
  assert (Hloop : loop all_alive faulty 20 (start w)
                  = Done (run_of (loop all_alive faulty 20 (start w))))
    by (vm_compute; reflexivity).
  split; [exact Hloop|]. split; [vm_compute; reflexivity|].
  destruct (loop_end_sees_exit_after_drain all_alive faulty 20 w _ Hloop)
    as (tr & ext & _ & _ & Hx).
  - vm_compute. discriminate.
  - exact (Hx exit_never_cleared_faulty).
Defined.

Section RunToCompletion.
Context {U : Type}.
Variable resolve : owner → bool.
Variable body : func → owner → event_id → Any → Any → World U → list (action U).
Implicit Types (r : Run U) (w : World U) (e : event_id) (d ld : Any) (o : owner) (f : func).

Lemma nested_app cur (t1 t2 : list obs) :
  nested resolve cur (t1 ++ t2)
  = nested resolve cur t1 && nested resolve (current cur t1) t2.
Proof.
  revert cur. induction t1 as [|ob t1 IH]; intros cur; [done|].
  destruct ob; simpl; rewrite ?IH; try done.
  by rewrite andb_assoc.
Qed.

Lemma nested_belongs e d (ext : list obs) :
  forallb (belongs resolve e d) ext = true →
  nested resolve (Some (e, d)) ext = true.
Proof.
  induction ext as [|ob ext IH]; [done|]. simpl.
  intros [Hob Hext]%andb_true_iff. specialize (IH Hext).
  destruct ob as [| f o e' d' ld | | | |]; simpl in *; try done.
  apply andb_true_iff in Hob as [[He%bool_decide_eq_true Hd%bool_decide_eq_true]%andb_true_iff Ho].
  subst. rewrite bool_decide_eq_true_2 by done. by rewrite Ho, IH.
Qed.

(** [out], started in [r], adds to the trace a piece that satisfies
    [P]. *)
Local Abbreviation adds P r out := (∃ ext : list obs, trace (run_of out) = trace r ++ ext ∧ P ext).

Lemma adds_bind (P : list obs → Prop) r out (k : Run U → outcome U) :
  (∀ a b, P a → P b → P (a ++ b)) →
  adds P r out →
  (∀ r1, out = Done r1 → adds P r1 (k r1)) →
  adds P r (bind out k).
Proof.
  intros Papp (ext1 & Ht1 & H1) Hk. rewrite run_of_bind.
  destruct out as [r1| |]; simpl in *; [|by eauto..].
  destruct (Hk r1 eq_refl) as (ext2 & Ht2 & H2).
  exists (ext1 ++ ext2). rewrite Ht2, Ht1, app_assoc. auto.
Qed.

Local Abbreviation during e d := (λ ext : list obs, forallb (belongs resolve e d) ext = true).
Local Abbreviation tidy := (λ ext : list obs, ∀ cur, nested resolve cur ext = true).

Lemma during_app e d (a b : list obs) : during e d a → during e d b → during e d (a ++ b).
Proof. cbv beta. intros Ha Hb. by rewrite forallb_app, Ha, Hb. Qed.

Lemma tidy_app (a b : list obs) : tidy a → tidy b → tidy (a ++ b).
Proof. cbv beta. intros Ha Hb cur. by rewrite nested_app, Ha, Hb. Qed.

Lemma run_actions_during e d (acts : list (action U)) r :
  ∃ ext, trace (run_actions acts r).1 = trace r ++ ext ∧ during e d ext.
Proof.
  revert r. induction acts as [|a acts IH]; intros r; simpl.
  - exists []. by rewrite app_nil_r.
  - pose proof (perform_trace a r) as Ht.
    assert (Ha : during e d match a with
                            | Trigger e' d' => [OQueued e' d']
                            | SetExit b => [OExit b]
                            | _ => []
                            end) by (by destruct a).
    destruct (perform a r) as [r1 [x|]]; simpl in *; [by eauto|].
    destruct (IH r1) as (ext & Ht1 & H1). eexists. rewrite Ht1, Ht, <- app_assoc.
    split; [done|]. by apply during_app.
Qed.

Lemma call_during f o e d ld r :
  resolve o = true →
  ∃ ext, trace (call body f o e d ld r).1 = trace r ++ ext ∧ during e d ext.
Proof.
  intros Ho. unfold call.
  destruct (run_actions_during e d (body f o e d ld (world r)) (log (OCall f o e d ld) r))
    as (ext & Ht & H).
  exists (OCall f o e d ld :: ext). simpl in *. rewrite Ht, <- app_assoc. split; [done|].
  by rewrite !bool_decide_eq_true_2, Ho by done.
Qed.

Lemma for_callbacks_during fuel o e d a j r :
  resolve o = true → adds (during e d) r (for_callbacks body fuel o e d a j r).
Proof.
  intros Ho. revert j r. induction fuel as [|n IH]; intros j r; simpl.
  { exists []. by rewrite app_nil_r. }
  destruct (Event.cell (events (world r) e) a !! j) as [[f ld]|].
  2: { exists []. by rewrite app_nil_r. }
  destruct (call_during f o e d ld r Ho) as (ext1 & Ht1 & H1).
  destruct (call body f o e d ld r) as [r1 [x|]]; simpl in *.
  - destruct (is_Exception x); simpl; [|by eauto].
    destruct (IH (S j) (log (OTraceback x) r1)) as (ext2 & Ht2 & H2). simpl in Ht2.
    exists (ext1 ++ OTraceback x :: ext2). rewrite Ht2, Ht1, <- !app_assoc. split; [done|].
    apply during_app; [done|]. done.
  - destruct (IH (S j) r1) as (ext2 & Ht2 & H2).
    exists (ext1 ++ ext2). rewrite Ht2, Ht1, <- !app_assoc. split; [done|].
    by apply during_app.
Qed.

Lemma for_owners_during fuel e d size i r :
  adds (during e d) r (for_owners resolve body fuel e d size i r).
Proof.
  revert i r. induction fuel as [|n IH]; intros i r; simpl.
  { exists []. by rewrite app_nil_r. }
  destruct (negb _); [exists []; by rewrite app_nil_r|].
  destruct (Event.internal_get_listeners (events (world r) e) !! i) as [[o a]|].
  2: { exists []. by rewrite app_nil_r. }
  destruct (resolve o) eqn:Ho; [|apply IH].
  apply adds_bind; [apply during_app | by apply for_callbacks_during |].
  intros r1 _. apply IH.
Qed.

(** A dispatch logs its start and then makes calls for its own event
    and data only. *)
Lemma dispatch_tidy fuel s e d r : adds tidy r (dispatch_event resolve body fuel s e d r).
Proof.
  unfold dispatch_event.
  destruct (for_owners_during fuel e d
              (length (Event.internal_get_listeners
                         (events (world (log (ODispatch s e d (exit (world r))) r)) e)))
              0 (log (ODispatch s e d (exit (world r))) r)) as (ext & Ht & H).
  exists (ODispatch s e d (exit (world r)) :: ext). simpl in *.
  rewrite Ht, <- app_assoc. split; [done|].
  intros cur. simpl. by apply nested_belongs.
Qed.

Lemma tidy_nil r : adds tidy r (Done r).
Proof. exists []. by rewrite app_nil_r. Qed.

Lemma check_empty_tidy fuel r : adds tidy r (check_empty resolve body fuel r).
Proof.
  unfold check_empty. destruct (bool_decide _ && negb _); [|apply tidy_nil].
  apply adds_bind; [apply tidy_app | apply dispatch_tidy |].
  intros r1 _. destruct (bool_decide _); [|apply tidy_nil].
  by exists [OLoopExit].
Qed.

Lemma drain_tidy fuel r : adds tidy r (drain resolve body fuel r).
Proof.
  revert r. induction fuel as [|n IH]; intros r; simpl; [apply tidy_nil|].
  destruct (queue (world r)) as [|[e d] q]; [apply tidy_nil|].
  apply adds_bind; [apply tidy_app | |].
  - apply (dispatch_tidy n Popped e d (with_world (set_queue q) r)).
  - intros r1 _. apply adds_bind; [apply tidy_app | apply check_empty_tidy |].
    intros r2 _. apply IH.
Qed.

Lemma loop_tidy fuel r : adds tidy r (loop resolve body fuel r).
Proof.
  unfold loop. apply adds_bind; [apply tidy_app | apply dispatch_tidy |].
  intros r1 _. apply adds_bind; [apply tidy_app | |].
  - destruct (negb _ && _); [apply dispatch_tidy | apply tidy_nil].
  - intros r2 _. apply adds_bind; [apply tidy_app | apply drain_tidy |].
    intros r3 _. apply dispatch_tidy.
Qed.

End RunToCompletion.

(** X8.  Run to completion.  In every run of [loop], finished or not,
    each call of a listener is made for the event and the event data of
    the dispatch that started last before it, and on an owner whose
    reference resolves: what a listener triggers is queued, and no
    dispatch starts before the one in progress has called its
    listeners. *)
Theorem listeners_run_to_completion {U} resolve body fuel (w : World U) :
  nested resolve None (trace (run_of (loop resolve body fuel (start w)))) = true.
Proof.
  destruct (loop_tidy resolve body fuel (start w)) as (ext & Ht & H).
  rewrite Ht. simpl. apply H.
Qed.

Section Failures.
Context {U : Type}.
Variable resolve : owner → bool.
Variable body : func → owner → event_id → Any → Any → World U → list (action U).
Implicit Types (r : Run U) (w : World U) (e : event_id) (d ld : Any) (o : owner) (f : func).

Local Abbreviation lsteps := (rtc (lstep body)).
Local Abbreviation steps := (rtc (step body)).

(** Why [x] can leave a call: the size of a dict of listeners changed
    while it was iterated, or a listener raised [x], which is no
    instance of [Exception]. *)
Local Abbreviation resized :=
  (∃ e r r0, lsteps r r0
     ∧ length (Event.listeners (events (world r0) e))
       ≠ length (Event.listeners (events (world r) e))).
Local Abbreviation escaped x :=
  (is_Exception x = false ∧ ∃ f o e d ld w, Throw x ∈ body f o e d ld w).
Local Abbreviation blamed x := ((x = RuntimeError ∧ resized) ∨ escaped x).

Lemma failure_bind (out : outcome U) (k : Run U → outcome U) x :
  failure (bind out k) = Some x →
  failure out = Some x ∨ ∃ r1, out = Done r1 ∧ failure (k r1) = Some x.
Proof. destruct out as [r1| |]; simpl; eauto. Qed.

Lemma run_actions_raise (acts : list (action U)) r x :
  (run_actions acts r).2 = Some x → Throw x ∈ acts ∨ is_Exception x = true.
Proof.
  revert r. induction acts as [|a acts IH]; intros r; simpl; [done|].
  pose proof (perform_raise a r) as Hraise.
  destruct (perform a r) as [r1 [y|]]; simpl in *.
  - intros [= <-]. destruct (Hraise y eq_refl) as [->|Hy]; [left; left | by right].
  - intros Hx. destruct (IH r1 Hx) as [Hin|Hex]; [left; by right | by right].
Qed.

Lemma for_callbacks_failure fuel o e d a j r x :
  failure (for_callbacks body fuel o e d a j r) = Some x → escaped x.
Proof.
  revert j r. induction fuel as [|n IH]; intros j r; simpl; [done|].
  destruct (Event.cell (events (world r) e) a !! j) as [[f ld]|]; [|done].
  pose proof (run_actions_raise (body f o e d ld (world r)) (log (OCall f o e d ld) r)) as Hraise.
  fold (call body f o e d ld r) in Hraise.
  destruct (call body f o e d ld r) as [r1 [y|]]; simpl in *; [|apply IH].
  destruct (is_Exception y) eqn:Hy; [apply IH|]. simpl. intros [= <-].
  split; [done|]. destruct (Hraise y eq_refl) as [Hin|Hex]; [|congruence].
  by exists f, o, e, d, ld, (world r).
Qed.

Lemma for_owners_failure fuel e d size i r x :
  failure (for_owners resolve body fuel e d size i r) = Some x →
  (x = RuntimeError
   ∧ ∃ r0, lsteps r r0 ∧ length (Event.listeners (events (world r0) e)) ≠ size)
  ∨ escaped x.
Proof.
  revert i r. induction fuel as [|n IH]; intros i r; simpl; [done|].
  unfold Event.internal_get_listeners.
  destruct (length (Event.listeners (events (world r) e)) =? size) eqn:Hsize; simpl.
  2: { intros [= <-]. left. split; [done|]. exists r. split; [done|].
       by apply Nat.eqb_neq. }
  destruct (Event.listeners (events (world r) e) !! i) as [[o a]|]; [|done].
  destruct (resolve o); [|apply IH].
  intros [Hcb|(r1 & Hcb & Hrest)]%failure_bind.
  - right. by eapply for_callbacks_failure.
  - destruct (IH _ _ Hrest) as [(-> & r0 & Hls & Hlen)|Hesc]; [|by right].
    left. split; [done|]. exists r0. split; [|done].
    etrans; [|exact Hls].
    pose proof (for_callbacks_lsteps body n o e d a 0 r) as H. by rewrite Hcb in H.
Qed.

Lemma dispatch_failure fuel s e d r x :
  failure (dispatch_event resolve body fuel s e d r) = Some x → blamed x.
Proof.
  unfold dispatch_event. intros [(-> & r0 & Hls & Hlen)|Hesc]%for_owners_failure; [|by right].
  left. split; [done|]. by exists e, (log (ODispatch s e d (exit (world r))) r), r0.
Qed.

Lemma check_empty_failure fuel r x :
  failure (check_empty resolve body fuel r) = Some x → blamed x.
Proof.
  unfold check_empty. destruct (bool_decide _ && negb _); [|done].
  intros [H|(r1 & _ & H)]%failure_bind; [by eapply dispatch_failure|].
  by destruct (bool_decide _).
Qed.

Lemma drain_failure fuel r x :
  failure (drain resolve body fuel r) = Some x → blamed x.
Proof.
  revert r. induction fuel as [|n IH]; intros r; simpl; [done|].
  destruct (queue (world r)) as [|[e d] q]; [done|].
  intros [H|(r1 & _ & [H|(r2 & _ & H)]%failure_bind)]%failure_bind.
  - by eapply dispatch_failure.
  - by eapply check_empty_failure.
  - by eapply IH.
Qed.

Lemma loop_failure fuel r x :
  failure (loop resolve body fuel r) = Some x → blamed x.
Proof.
  unfold loop.
  intros [H|(r1 & _ & [H|(r2 & _ & [H|(r3 & _ & H)]%failure_bind)]%failure_bind)]%failure_bind.
  - by eapply dispatch_failure.
  - destruct (negb _ && _); [by eapply dispatch_failure | done].
  - by eapply drain_failure.
  - by eapply dispatch_failure.
Qed.

(** The table of an event that no listener registers for or unregisters
    from is the same after every step. *)
Lemma lstep_events e r r' :
  (∀ f o e' d ld w a, a ∈ body f o e' d ld w → touches e a = false) →
  lstep body r r' → events (world r') e = events (world r) e.
Proof.
  intros Hfrozen [f o e' d ld r0|f o e' d ld w a r0 Ha|x r0]; [done| |done].
  apply perform_static. by eapply Hfrozen.
Qed.

Lemma lsteps_events e r r' :
  (∀ f o e' d ld w a, a ∈ body f o e' d ld w → touches e a = false) →
  lsteps r r' → events (world r') e = events (world r) e.
Proof.
  intros Hfrozen. induction 1 as [r|r r1 r2 H1 _ IH]; [done|].
  rewrite IH. by apply lstep_events.
Qed.

Lemma steps_events e r r' :
  (∀ f o e' d ld w a, a ∈ body f o e' d ld w → touches e a = false) →
  steps r r' → events (world r') e = events (world r) e.
Proof.
  intros Hfrozen. induction 1 as [r|r r1 r2 H1 _ IH]; [done|].
  rewrite IH. destruct H1 as [r r' Hl| | | | |]; try done.
  by apply lstep_events.
Qed.

(** The interface keeps a table well formed. *)
Lemma perform_ok (a : action U) r :
  (∀ e, Event.ok (events (world r) e)) → ∀ e, Event.ok (events (world (perform a r).1) e).
Proof.
  intros Hok e.
  destruct a as [e' d'|e' m ld'|e' m|e' o'|b|u|x]; simpl; try done.
  - destruct m as [o f|g]; [|done].
    destruct (register_bound (events (world r) e') o f ld' (Hok e')) as (ev & -> & Hev & _).
    simpl. destruct (decide (e = e')) as [->|Hne].
    + by rewrite fn_lookup_insert.
    + by rewrite fn_lookup_insert_ne.
  - destruct (decide (e = e')) as [->|Hne]; [|by rewrite fn_lookup_insert_ne].
    rewrite fn_lookup_insert. destruct m as [o f|g]; [|exact (Hok e')].
    by apply unregister_bound.
  - destruct (decide (e = e')) as [->|Hne]; [|by rewrite fn_lookup_insert_ne].
    rewrite fn_lookup_insert. by apply ok_unregister_object.
Qed.

Lemma steps_ok r r' :
  steps r r' →
  (∀ e, Event.ok (events (world r) e)) → ∀ e, Event.ok (events (world r') e).
Proof.
  induction 1 as [r|r r1 r2 H1 _ IH]; [done|]. intros Hok. apply IH.
  destruct H1 as [r r' Hl| | | | |]; try done.
  destruct Hl as [f o e' d ld r|f o e' d ld w a r Ha|x r]; [done| |done].
  by apply perform_ok.
Qed.

(** Dispatcher and listeners only add to the trace. *)
Lemma steps_prefix r r' : steps r r' → trace r `prefix_of` trace r'.
Proof.
  induction 1 as [r|r r1 r2 H1 _ IH]; [done|]. etrans; [|exact IH].
  destruct H1 as [r r' Hl| | | | |]; simpl; try by apply prefix_app_r.
  destruct (lstep_ext body _ _ Hl) as (ext & -> & _). by apply prefix_app_r.
Qed.

(** The run of [loop] after the start of its first dispatch. *)
Lemma loop_steps_after_start fuel r :
  steps (log (ODispatch AtLoopStart event_loop_start PyNone (exit (world r))) r)
        (run_of (loop resolve body fuel r)).
Proof.
  unfold loop. unfold dispatch_event at 1.
  apply steps_bind; [apply lsteps_steps, for_owners_lsteps|].
  intros r1 _. apply steps_bind.
  - destruct (exit (world r1)) eqn:Hx; simpl; [done|].
    case_bool_decide as Hq; [|done].
    apply dispatch_steps. rewrite Hx. apply step_notify; auto.
  - intros r2 _. apply steps_bind; [apply drain_steps|].
    intros r3 _. apply dispatch_steps, step_end.
Qed.

End Failures.







(** X12.  [loop] never clears [exit].  When [exit] is true at the call
    of [loop] and no listener sets it to false, the run dispatches
    [event_queue_empty] neither before nor in the drain loop, and
    [exit] is true at its end. *)
Theorem loop_with_exit_set {U} resolve body fuel (w : World U) :
  exit w = true → exit_never_cleared body →
  let r' := run_of (loop resolve body fuel (start w)) in
  exit (world r') = true
  ∧ Forall (λ ob, is_notification ob = false) (trace r').
Proof.
  intros Hx Hnc r'.
  set (r0 := log (ODispatch AtLoopStart event_loop_start PyNone (exit w)) (start w)).
  pose proof (loop_steps_after_start resolve body fuel (start w)) as Hsteps.
  simpl in Hsteps. fold r0 in Hsteps. fold r' in Hsteps.
  assert (H0 : settled (trace r0) (exit (world r0))).
  { simpl. rewrite Hx. split; [|done].
    intros i j o1 o2 Hi Hj _ _. destruct j as [|j]; [|done]. by injection Hj as <-. }
  destruct (settled_steps body _ _ Hnc Hsteps H0) as [Hquiet Hseen].
  destruct (steps_prefix body _ _ Hsteps) as (ext & Ht). simpl in Ht. rewrite Hx in Ht.
  split.
  - apply Hseen. rewrite Ht. by apply Exists_cons_hd.
  - apply Forall_lookup. intros j ob Hj.
    apply (Hquiet 0 j (ODispatch AtLoopStart event_loop_start PyNone true) ob);
      [by rewrite Ht|done|lia|done].
Qed.

(** The system of test_run_to_completion with [exit] set before
    [loop]: the events are dispatched, [event_queue_empty] is not. *)
Lemma loop_with_exit_set_witness :
  let w := system [(5, one_owner [60; 61])] [(5, PyNone)] true in
  let r' := run_of (loop all_alive faulty 20 (start w)) in
  exit w = true ∧ exit_never_cleared faulty ∧ exit (world r') = true
  ∧ dispatches (trace r')
    = [(AtLoopStart, event_loop_start, PyNone); (Popped, 5, PyNone);
       (Popped, 7, PyNone); (AtLoopEnd, event_loop_end, PyNone)].
Proof.
  intros w r'. split; [reflexivity|]. split; [exact exit_never_cleared_faulty|].
  split; [|vm_compute; reflexivity].
  exact (proj1 (loop_with_exit_set all_alive faulty 20 w eq_refl exit_never_cleared_faulty)).
Defined.

(** * One dispatcher for the process *)

Section SingletonFacts.
Import Singleton.
Implicit Types (p : process) (c : call) (cs : list call) (i j : nat).

Lemma exec_cons c cs p : exec (c :: cs) p = exec cs (exec1 p c).
Proof. done. Qed.

Lemma wf_boot : wf boot.
Proof. by split. Qed.

Lemma exec1_wf p c : wf p → wf (exec1 p c).
Proof.
  intros Hwf. pose proof Hwf as [Hi Hb]. destruct c as [| |e d|]; simpl.
  - unfold init. destruct (instance_ p) as [i|] eqn:Hinst; [exact Hwf|].
    split; simpl; [done|].
    intros i Hd. rewrite length_app. apply Hb in Hd. simpl. lia.
  - unfold instance, init. destruct (instance_ p) as [i|] eqn:Hinst; [exact Hwf|].
    split; simpl; [done|]. intros i [= <-]. rewrite length_app. simpl. lia.
  - unfold trigger. destruct (event_dispatcher p) as [i|] eqn:Hd; [|exact Hwf].
    split; simpl; [by rewrite Hd|]. intros j Hj. rewrite length_alter. apply Hb. congruence.
  - split; simpl; [done|]. exact Hb.
Qed.

Lemma exec_wf cs p : wf p → wf (exec cs p).
Proof.
  revert p. induction cs as [|c cs IH]; intros p Hwf; [done|].
  rewrite exec_cons. by apply IH, exec1_wf.
Qed.

(** What [internal_queue_event] does to the process. *)
Lemma internal_queue_event_facts i e d p :
  i < length (objects p) →
  let p' := internal_queue_event i e d p in
  instance_ p' = instance_ p ∧ event_dispatcher p' = event_dispatcher p
  ∧ length (objects p') = length (objects p)
  ∧ queue_of i p' = queue_of i p ++ [(e, d)]
  ∧ ∀ j, j ≠ i → objects p' !! j = objects p !! j.
Proof.
  intros Hlt. cbv zeta. unfold internal_queue_event, queue_of. simpl.
  split; [done|]. split; [done|]. split; [by rewrite length_alter|]. split.
  - rewrite list_lookup_alter_eq.
    destruct (lookup_lt_is_Some_2 _ _ Hlt) as [o ->]. done.
  - intros j Hne. by rewrite list_lookup_alter_ne.
Qed.

(** One call that is no [__del__], made while [instance()] has a
    dispatcher. *)
Lemma exec1_kept p i c :
  wf p → instance_ p = Some i → c ≠ Call_del →
  let p' := exec1 p c in
  instance_ p' = Some i
  ∧ length (objects p') = length (objects p)
  ∧ queue_of i p' = queue_of i p ++ triggered [c]
  ∧ ∀ j, j ≠ i → objects p' !! j = objects p !! j.
Proof.
  intros [Hi Hb] Hinst Hc. cbv zeta. destruct c as [| |e d|]; simpl.
  - unfold init. rewrite Hinst. by rewrite app_nil_r.
  - unfold instance. rewrite Hinst. by rewrite app_nil_r.
  - unfold trigger. rewrite (Hi i Hinst).
    destruct (internal_queue_event_facts i e d p (Hb i (Hi i Hinst)))
      as (H1 & _ & H3 & H4 & H5).
    rewrite H1. done.
  - done.
Qed.

(** Events are bound to a dispatcher by [instance()] and by nothing
    else, and never unbound. *)
Lemma exec1_unbound p c :
  wf p →
  event_dispatcher (exec1 p c) = None ↔ event_dispatcher p = None ∧ c ≠ Call_instance.
Proof.
  intros Hwf. destruct c as [| |e d|]; simpl.
  - unfold init. destruct (instance_ p); simpl;
      (split; [intros H; by split | by intros [H _]]).
  - unfold instance, init. destruct (instance_ p) as [i|] eqn:Hinst; simpl.
    + rewrite (proj1 Hwf i Hinst). split; [done | by intros [H _]].
    + split; [done | by intros [_ []]].
  - unfold trigger. destruct (event_dispatcher p) eqn:Hd; simpl.
    + rewrite Hd. split; [done | by intros [H _]].
    + by split.
  - split; [intros H; by split | by intros [H _]].
Qed.

Lemma exec_unbound cs p :
  wf p →
  event_dispatcher (exec cs p) = None ↔ event_dispatcher p = None ∧ Call_instance ∉ cs.
Proof.
  revert p. induction cs as [|c cs IH]; intros p Hwf.
  - simpl. split; [intros H; split; [done|apply not_elem_of_nil] | by intros [H _]].
  - rewrite exec_cons, (IH _ (exec1_wf p c Hwf)), (exec1_unbound p c Hwf), not_elem_of_cons.
    intuition congruence.
Qed.

(** Calls that are not [instance()], made before any dispatcher is
    bound. *)
Lemma exec_unregistered cs p :
  instance_ p = None → event_dispatcher p = None → Call_instance ∉ cs →
  let p' := exec cs p in
  instance_ p' = None ∧ event_dispatcher p' = None
  ∧ objects p' = objects p ++ replicate (length (filter (λ c, c = Call_init) cs)) fresh.
Proof.
  revert p. induction cs as [|c cs IH]; intros p Hinst Hd Hcs; cbv zeta.
  - simpl. by rewrite app_nil_r.
  - apply not_elem_of_cons in Hcs as [Hc Hcs]. rewrite exec_cons.
    destruct c as [| |e d|]; [| done | |].
    + destruct (IH (exec1 p Call_init)) as (H1 & H2 & H3); [..|done|].
      { simpl. unfold init. by rewrite Hinst. }
      { simpl. unfold init. by rewrite Hinst. }
      split; [done|]. split; [done|]. rewrite H3. simpl. unfold init. rewrite Hinst. simpl.
      by rewrite <- app_assoc.
    + assert (Hsame : exec1 p (Call_trigger e d) = p).
      { simpl. unfold trigger. by rewrite Hd. }
      rewrite Hsame. rewrite filter_cons_False by done. by apply IH.
    + destruct (IH (exec1 p Call_del)) as (H1 & H2 & H3); [done..|].
      split; [done|]. split; [done|]. by rewrite H3.
Qed.

(** Triggers while events are bound to the dispatcher [i]. *)
Lemma exec_triggers ts p i :
  event_dispatcher p = Some i → i < length (objects p) →
  let p' := exec (triggers ts) p in
  instance_ p' = instance_ p ∧ event_dispatcher p' = Some i
  ∧ length (objects p') = length (objects p)
  ∧ queue_of i p' = queue_of i p ++ ts
  ∧ ∀ j, j ≠ i → objects p' !! j = objects p !! j.
Proof.
  revert p. induction ts as [|[e d] ts IH]; intros p Hd Hlt; cbv zeta.
  - simpl. by rewrite app_nil_r.
  - unfold triggers. rewrite fmap_cons, exec_cons. fold (triggers ts).
    assert (Hstep : exec1 p (Call_trigger e d) = internal_queue_event i e d p).
    { simpl. unfold trigger. by rewrite Hd. }
    simpl fst. simpl snd. rewrite Hstep.
    destruct (internal_queue_event_facts i e d p Hlt) as (H1 & H2 & H3 & H4 & H5).
    destruct (IH (internal_queue_event i e d p)) as (K1 & K2 & K3 & K4 & K5);
      [congruence | lia |].
    rewrite K1, K2, K3, K4, H1, H3, H4, <- app_assoc.
    repeat split; try done. intros j Hne. by rewrite K5, H5.
Qed.

End SingletonFacts.

(** X13.  Whatever the application calls, in whatever order, the
    dispatcher that [instance()] holds is the dispatcher that events
    are bound to, and events are bound to a dispatcher that exists. *)
Theorem instance_is_the_bound_dispatcher cs :
  Singleton.wf (Singleton.exec cs Singleton.boot).
Proof. apply exec_wf, wf_boot. Qed.



(** X15.  [Event.trigger] needs [instance()].  In a process that has
    made any calls since its start, a trigger fails, with the
    [AttributeError] of [None], exactly when [instance()] was never
    called: neither a direct construction binds events to a dispatcher
    nor does [__del__] unbind them. *)
Theorem trigger_needs_instance cs e d :
  Singleton.trigger e d (Singleton.exec cs Singleton.boot) = None
  ↔ Singleton.Call_instance ∉ cs.
Proof.
  pose proof (exec_unbound cs Singleton.boot wf_boot) as H.
  unfold Singleton.trigger.
  destruct (Singleton.event_dispatcher (Singleton.exec cs Singleton.boot)) as [i|].
  - split; [done|]. intros Hcs. discriminate (proj2 H (conj eq_refl Hcs)).
  - split; [|done]. intros _. exact (proj2 (proj1 H eq_refl)).
Qed.

(** X16.  The constructor does not register what it makes.  As long as
    [instance()] has not been called, every direct construction
    succeeds and makes one more dispatcher, all of them as new, and
    [instance()] still holds none. *)
Theorem direct_construction_is_not_registered cs :
  Singleton.Call_instance ∉ cs →
  let p := Singleton.exec cs Singleton.boot in
  Singleton.instance_ p = None
  ∧ Singleton.event_dispatcher p = None
  ∧ Singleton.objects p
    = replicate (length (filter (λ c, c = Singleton.Call_init) cs)) Singleton.fresh.
Proof. intros Hcs. by apply (exec_unregistered cs Singleton.boot). Qed.

Lemma direct_construction_is_not_registered_witness :
  let p := Singleton.exec [Singleton.Call_init; Singleton.Call_trigger 5 PyNone;
                           Singleton.Call_init] Singleton.boot in
  Singleton.instance_ p = None
  ∧ Singleton.objects p = [Singleton.fresh; Singleton.fresh].
Proof.
  intros p.
  destruct (direct_construction_is_not_registered
              [Singleton.Call_init; Singleton.Call_trigger 5 PyNone; Singleton.Call_init])
    as (H1 & _ & H3).
  - intros Hin. apply list_elem_of_In in Hin. simpl in Hin. intuition discriminate.
  - split; [exact H1 | exact H3].
Defined.

(** X17.  [__del__] gives up the singleton and leaves events bound.
    After [__del__] of the dispatcher of [instance()], the events that
    are triggered are still put on the queue of that dispatcher; the
    next [instance()] makes a new dispatcher with an empty queue and
    binds events to it, and the events triggered in between stay on
    the queue of the old one. *)
Theorem instance_after_del p i ts :
  Singleton.wf p → Singleton.instance_ p = Some i →
  let p1 := Singleton.exec (Singleton.Call_del :: Singleton.triggers ts) p in
  Singleton.instance_ p1 = None
  ∧ Singleton.queue_of i p1 = Singleton.queue_of i p ++ ts
  ∧ ∃ j p2,
      Singleton.instance p1 = Ok (j, p2)
      ∧ j = length (Singleton.objects p) ∧ j ≠ i
      ∧ Singleton.instance_ p2 = Some j
      ∧ Singleton.event_dispatcher p2 = Some j
      ∧ Singleton.queue_of j p2 = []
      ∧ Singleton.queue_of i p2 = Singleton.queue_of i p ++ ts.
Proof.
  intros [Hi Hb] Hinst. cbv zeta. rewrite exec_cons.
  pose proof (Hb i (Hi i Hinst)) as Hlt.
  destruct (exec_triggers ts (Singleton.exec1 p Singleton.Call_del) i)
    as (H1 & H2 & H3 & H4 & _); [by apply Hi | done |].
  set (p1 := Singleton.exec (Singleton.triggers ts) (Singleton.exec1 p Singleton.Call_del)) in *.
  simpl in H1, H3, H4. split; [done|]. split; [done|].
  unfold Singleton.instance, Singleton.init. rewrite H1. eexists _, _.
  split; [done|]. split; [done|]. split; [lia|]. simpl.
  split; [by rewrite H3|]. split; [by rewrite H3|].
  unfold Singleton.queue_of in *. simpl. split.
  - by rewrite list_lookup_middle.
  - rewrite lookup_app_l by lia. exact H4.
Qed.

Lemma instance_after_del_witness :
  let p := Singleton.exec [Singleton.Call_instance; Singleton.Call_trigger 5 PyNone]
             Singleton.boot in
  let p1 := Singleton.exec [Singleton.Call_del; Singleton.Call_trigger 6 PyNone] p in
  Singleton.queue_of 0 p1 = [(5, PyNone); (6, PyNone)]
  ∧ ∃ p2, Singleton.instance p1 = Ok (1, p2) ∧ Singleton.queue_of 1 p2 = [].
Proof.
  intros p p1.
  destruct (instance_after_del p 0 [(6, PyNone)])
    as (_ & H2 & j & p2 & H3 & -> & _ & _ & _ & H7 & _).
  - apply exec_wf, wf_boot.
  - reflexivity.
  - split; [exact H2|]. exists p2. split; [exact H3 | exact H7].
Defined.

(** * Termination *)

Section Quiet.
Context {U : Type}.
Variable resolve : owner → bool.
Variable body : func → owner → event_id → Any → Any → World U → list (action U).
Hypothesis Hquiet : quiet body.
Implicit Types (r : Run U) (w : World U) (e : event_id) (d ld : Any) (o : owner) (f : func).

Local Abbreviation lsteps := (rtc (lstep body)).
Local Abbreviation steps := (rtc (step body)).

(** [r'] has the queue and the listener tables of [r]. *)
Local Abbreviation same r r' :=
  (queue (world r') = queue (world r) ∧ ∀ e, events (world r') e = events (world r) e).

Lemma quiet_touches f o e d ld w a e' :
  a ∈ body f o e d ld w → touches e' a = false.
Proof using Hquiet. intros Ha%Hquiet. by destruct a. Qed.

Lemma lsteps_same r r' : lsteps r r' → same r r'.
Proof using Hquiet.
  induction 1 as [r|r r1 r2 H1 _ [IHq IHe]]; [done|].
  assert (H : same r r1).
  { destruct H1 as [f o e d ld r|f o e d ld w a r Ha|x r]; [done| |done].
    split.
    - rewrite perform_queue. apply Hquiet in Ha. destruct a; try done; apply app_nil_r.
    - intros e'. apply perform_static. by eapply quiet_touches. }
  destruct H as [Hq He]. split; [congruence|]. intros e. by rewrite IHe.
Qed.

Lemma steps_queued r r' : steps r r' → queued (trace r') = queued (trace r).
Proof using Hquiet.
  induction 1 as [r|r r1 r2 H1 _ IH]; [done|]. rewrite IH. clear IH.
  unfold queued.
  destruct H1 as [r r' Hl|e d q r Hq|r|r|s r Hs Hx Hq|r Hq]; simpl;
    rewrite ?omap_app; simpl; rewrite ?app_nil_r; try done.
  destruct Hl as [f o e d ld r|f o e d ld w a r Ha|x r]; simpl;
    rewrite ?omap_app; simpl; rewrite ?app_nil_r; try done.
  rewrite perform_trace, omap_app. apply Hquiet in Ha.
  destruct a; try done; simpl; by rewrite app_nil_r.
Qed.

(** A dispatch with quiet listeners returns when the fuel covers the
    table. *)
Lemma quiet_dispatch fuel s e d r :
  cost (events (world r) e) < fuel →
  ∃ r', dispatch_event resolve body fuel s e d r = Done r' ∧ same r r'.
Proof using Hquiet.
  intros Hfuel.
  destruct (dispatch_static resolve body fuel s e d r) as (r' & _ & Hres); [|done|].
  { intros f o ld w a _ Ha. by eapply quiet_touches. }
  destruct Hres as [[Hout _]|(x & pre & _ & Hx & Hth & _)].
  - exists r'. split; [done|].
    pose proof (for_owners_lsteps resolve body fuel e d
                  (length (Event.internal_get_listeners
                             (events (world (log (ODispatch s e d (exit (world r))) r)) e)))
                  0 (log (ODispatch s e d (exit (world r))) r)) as Hls.
    unfold dispatch_event in Hout. rewrite Hout in Hls. by apply lsteps_same in Hls.
  - destruct Hth as (f & o & e' & d' & ld & w & _ & Hin). apply Hquiet in Hin.
    simpl in Hin. congruence.
Qed.

Lemma quiet_check_empty fuel r :
  cost (events (world r) event_queue_empty) < fuel →
  ∃ r', check_empty resolve body fuel r = Done r' ∧ same r r'.
Proof using Hquiet.
  intros Hfuel. unfold check_empty.
  destruct (bool_decide (queue (world r) = [])) eqn:Hq; simpl; [|by exists r].
  destruct (exit (world r)); simpl; [by exists r|].
  destruct (quiet_dispatch fuel InDrain event_queue_empty PyNone r Hfuel)
    as (r1 & -> & Hq1 & He1).
  simpl. destruct (bool_decide (queue (world r1) = [])); eauto.
Qed.

Lemma quiet_drain c fuel r :
  (∀ e, cost (events (world r) e) < c) →
  length (queue (world r)) + c < fuel →
  ∃ r', drain resolve body fuel r = Done r'
    ∧ queue (world r') = [] ∧ ∀ e, events (world r') e = events (world r) e.
Proof using Hquiet.
  revert r. induction fuel as [|n IH]; intros r Hc Hfuel; [lia|]. simpl.
  destruct (queue (world r)) as [|[e d] q] eqn:Hq; [by exists r|].
  simpl in Hfuel.
  destruct (quiet_dispatch n Popped e d (with_world (set_queue q) r))
    as (r1 & -> & Hq1 & He1).
  { simpl. specialize (Hc e). lia. }
  simpl in Hq1, He1. simpl.
  destruct (quiet_check_empty n r1) as (r2 & -> & Hq2 & He2).
  { rewrite He1. specialize (Hc event_queue_empty). lia. }
  simpl. destruct (IH r2) as (r3 & H3 & Hq3 & He3).
  - intros e'. rewrite He2, He1. apply Hc.
  - rewrite Hq2, Hq1. lia.
  - exists r3. split; [done|]. split; [done|]. intros e'. by rewrite He3, He2, He1.
Qed.

Lemma quiet_loop c fuel r :
  (∀ e, cost (events (world r) e) < c) →
  length (queue (world r)) + c < fuel →
  ∃ r', loop resolve body fuel r = Done r'
    ∧ queue (world r') = [] ∧ ∀ e, events (world r') e = events (world r) e.
Proof using Hquiet.
  intros Hc Hfuel. unfold loop.
  destruct (quiet_dispatch fuel AtLoopStart event_loop_start PyNone r)
    as (r1 & -> & Hq1 & He1).
  { specialize (Hc event_loop_start). lia. }
  simpl.
  assert (H2 : ∃ r2, (if negb (exit (world r1)) && bool_decide (queue (world r1) = [])
                      then dispatch_event resolve body fuel PreDrain event_queue_empty PyNone r1
                      else Done r1) = Done r2 ∧ same r1 r2).
  { destruct (negb _ && _); [|by exists r1].
    apply quiet_dispatch. rewrite He1. specialize (Hc event_queue_empty). lia. }
  destruct H2 as (r2 & -> & Hq2 & He2). simpl.
  destruct (quiet_drain c fuel r2) as (r3 & -> & Hq3 & He3).
  { intros e. rewrite He2, He1. apply Hc. }
  { rewrite Hq2, Hq1. lia. }
  simpl.
  destruct (quiet_dispatch fuel AtLoopEnd event_loop_end PyNone r3)
    as (r4 & H4 & Hq4 & He4).
  { rewrite He3, He2, He1. specialize (Hc event_loop_end). lia. }
  exists r4. split; [done|]. split; [congruence|].
  intros e. by rewrite He4, He3, He2, He1.
Qed.

End Quiet.


